(** * PHOS digitizer: merging summable digits into digits

    A shallow embedding of [AliPHOSDigitizer::Digitize] and
    [AliPHOSDigitizer::FrontEdgeTime] (PHOS/AliPHOSDigitizer.cxx), with the
    properties of the merge, the threshold removal and the final indexing.

    Conventions of the embedding.
    - [Int_t] values are integers of [Z]; the offset [10000000*i] and the
      primaries shifted by it are wrapped to 32 bits.
    - [Float_t] values (amplitudes, times, noise levels, thresholds) are
      rationals of [Q]; the constants the constructors store are the
      single-precision values nearest to the literals of the source, and the
      arithmetic on amplitudes is not rounded.
    - A [TClonesArray] of digits is a list of slots, a slot being empty
      ([None], the null pointer) or holding a digit.
    - A [TArrayF] is a list of rationals.
    - Reading through a null pointer and assigning past the one [TArrayF]
      that [energies] or [times] points to are the two faults an execution
      can run into; [Digitize] returns either the final digits or the
      fault. *)

From Stdlib Require Import ZArith QArith Lia Sorted.
From stdpp Require Import base option list strings.

Local Open Scope Z_scope.

(** ** Machine integers *)

Definition Int_t (z : Z) : Z := (z + 2 ^ 31) mod 2 ^ 32 - 2 ^ 31.

(** ** Comparisons on [Float_t] *)

Definition Qlt_bool (x y : Q) : bool := negb (Qle_bool y x).

(** [while(curtime)]: a float is true when it is not zero. *)
Definition Float_true (x : Q) : bool := negb (Qeq_bool x 0).

(** ** Faults and results *)

Inductive Fault : Set :=
| NullDereference   (* a method called through a null pointer *)
| ScratchOverflow.  (* an assignment past the object energies or times points to *)

Inductive result (A : Type) : Type :=
| Ok (a : A)
| Crash (f : Fault).
Arguments Ok {A} a.
Arguments Crash {A} f.

#[global] Instance result_ret : MRet result := @Ok.
#[global] Instance result_bind : MBind result := fun A B k m =>
  match m with
  | Ok a => k a
  | Crash f => Crash f
  end.

(** A loop over the values [xs], threading the state and stopping at the
    first fault. *)
Fixpoint forM {S X : Type} (body : S -> X -> result S) (xs : list X) (s : S)
  : result S :=
  match xs with
  | [] => Ok s
  | x :: more => s' ← body s x; forM body more s'
  end.

(** ** Digits *)

(** Modelled from the spec: the class AliPHOSDigit (AliPHOSDigit.h and .cxx
    are not among the sources).  A digit has a channel, an amplitude, a time,
    the list of its primaries with their weights, and its index in the list
    of digits. *)
Record AliPHOSDigit : Type := mkDigit {
  fId : Z;
  fAmp : Q;
  fTime : Q;
  fPrimary : list (Z * Q);
  fIndexInList : Z
}.

(** Modelled from the spec: the constructor call
    [AliPHOSDigit(-1, absID, amp, time)], a digit without primary and with
    the default index -1. *)
Definition NoiseDigit (absID : Z) (amp time : Q) : AliPHOSDigit :=
  {| fId := absID; fAmp := amp; fTime := time; fPrimary := [];
     fIndexInList := -1 |}.

(** Modelled from the spec: [AliPHOSDigit::ShiftPrimary], the offset is added
    to every primary of the digit. *)
Definition ShiftPrimary (shift : Z) (d : AliPHOSDigit) : AliPHOSDigit :=
  {| fId := fId d; fAmp := fAmp d; fTime := fTime d;
     fPrimary := map (fun pw => (Int_t (fst pw + shift), snd pw)) (fPrimary d);
     fIndexInList := fIndexInList d |}.

(** Modelled from the spec: [AliPHOSDigit::operator+], the amplitude of the
    second digit is folded into the first and its primaries are appended. *)
Definition digit_plus (d s : AliPHOSDigit) : AliPHOSDigit :=
  {| fId := fId d; fAmp := (fAmp d + fAmp s)%Q; fTime := fTime d;
     fPrimary := fPrimary d ++ fPrimary s;
     fIndexInList := fIndexInList d |}.

Definition SetTime (t : Q) (d : AliPHOSDigit) : AliPHOSDigit :=
  {| fId := fId d; fAmp := fAmp d; fTime := t; fPrimary := fPrimary d;
     fIndexInList := fIndexInList d |}.

Definition SetIndexInList (i : Z) (d : AliPHOSDigit) : AliPHOSDigit :=
  {| fId := fId d; fAmp := fAmp d; fTime := fTime d; fPrimary := fPrimary d;
     fIndexInList := i |}.

(** ** ROOT containers *)

(** [TObjArray::At]: the object of the slot, null outside the array. *)
Definition At {A : Type} (arr : list (option A)) (i : nat) : option A :=
  arr !! i ≫= id.

(** The summable digits of one input fill their array densely. *)
Definition SDigits_At (sdigits : list AliPHOSDigit) (i : nat)
  : option AliPHOSDigit := sdigits !! i.

(** [p->method()]: a fault when [p] is null. *)
Definition deref {A : Type} (p : option A) : result A :=
  match p with
  | Some a => Ok a
  | None => Crash NullDereference
  end.

(** [p->GetId()]. *)
Definition GetId (p : option AliPHOSDigit) : result Z :=
  digit ← deref p; Ok (fId digit).

(** [TObjArray::RemoveAt]. *)
Definition RemoveAt {A : Type} (arr : list (option A)) (i : nat)
  : list (option A) := <[i := None]> arr.

(** [TObjArray::Compress]: the objects move to the front, in their order. *)
Definition Compress {A : Type} (arr : list (option A)) : list (option A) :=
  let live := omap id arr in
  (Some <$> live) ++ replicate (length arr - length live) None.

(** [TObjArray::GetEntriesFast]: one more than the index of the last
    object. *)
Fixpoint GetEntriesFast {A : Type} (arr : list (option A)) : nat :=
  match arr with
  | [] => 0%nat
  | slot :: more =>
      match slot, GetEntriesFast more with
      | None, O => 0%nat
      | _, n => S n
      end
  end.

(** [TObjArray::Expand]. *)
Definition Expand {A : Type} (n : nat) (arr : list (option A))
  : list (option A) := take n arr ++ replicate (n - length arr) None.

(** [new TArrayF(n)] and [TArrayF::Reset]: all slots zero. *)
Definition TArrayF_new (n : nat) : list Q := replicate n 0%Q.
Definition TArrayF_Reset (a : list Q) : list Q := replicate (length a) 0%Q.

(** [TArrayF::At]: range checked, zero outside the array. *)
Definition TArrayF_At (a : list Q) (i : nat) : Q := default 0%Q (a !! i).

(** The conversion of a [Float_t] to [Int_t]: towards zero. *)
Definition Int_of_Float (x : Q) : Z := Z.quot (Qnum x) (Z.pos (Qden x)).

(** [energies[contrib] = x] and [times[contrib] = x], where [energies] and
    [times] are pointers to one [TArrayF] each: the subscript is taken on
    the pointer, and what is assigned is the array [TArrayF((Int_t)x)].  At
    [contrib = 0] the array [a] pointed to is replaced by a zero-filled
    array of [(Int_t)x] slots (none when that is not positive); from
    [contrib = 1] on the assignment lands past the one object: a fault,
    whatever the length of [a].  The value [x] is stored in no slot. *)
Definition store (a : list Q) (contrib : nat) (x : Q) : result (list Q) :=
  match contrib with
  | O => Ok (TArrayF_new (Z.to_nat (Int_of_Float x)))
  | S _ => Crash ScratchOverflow
  end.

(** ** The digitizer and what it consults *)

Record AliPHOSGeometry : Type := {
  GetNModules : nat;
  GetNPhi : nat;
  GetNZ : nat;
  GetNumberOfCPVPadsZ : nat;
  GetNumberOfCPVPadsPhi : nat
}.

(** The fields of the digitizer that [Digitize] reads; [fARD], when set,
    gives the mask of every input ([AliRunDigitizer::GetMask]). *)
Record AliPHOSDigitizer : Type := {
  fPinNoise : Q;
  fEMCDigitThreshold : Q;
  fCPVNoise : Q;
  fCPVDigitThreshold : Q;
  fARD : option (nat -> Z)
}.

(** The literals [0.01] and [0.09] once stored in a [Float_t]: the nearest
    single-precision values, 5368709/2^29 and 3019899/2^25. *)
Definition Float_0_01 : Q := 5368709 # 536870912.
Definition Float_0_09 : Q := 3019899 # 33554432.

(** The values set by the constructors. *)
Definition AliPHOSDigitizer_ctor (ard : option (nat -> Z)) : AliPHOSDigitizer :=
  {| fPinNoise := Float_0_01; fEMCDigitThreshold := Float_0_01;
     fCPVNoise := Float_0_01; fCPVDigitThreshold := Float_0_09; fARD := ard |}.

(** What the run supplies: the random generator ([Gaus sigma absID] is the
    sample drawn for the cell [absID]) and the two conversions of the
    SDigitizer. *)
Record Collaborators : Type := {
  Gaus : Q -> Z -> Q;
  SDigitize : Q -> Q;
  Calibrate : Q -> Q
}.

Definition TimeOfNoise : Q := 1.

(** The state of the merge: the digits, the next cell with signal, the read
    position in every input, and the two scratch arrays. *)
Record MergeState : Type := mkState {
  digits : list (option AliPHOSDigit);
  nextSig : Z;
  index : list nat;
  energies : list Q;
  times : list Q
}.

(** What the loop over the inputs of an EMC cell updates. *)
Record Fold : Type := mkFold {
  fdDigit : AliPHOSDigit;
  fdContrib : nat;
  fdEnergies : list Q;
  fdTimes : list Q
}.

(** ** FrontEdgeTime *)

(** The loop of [FrontEdgeTime]: [rest] holds the slots from [i] on. *)
Fixpoint FrontEdgeScan (time curtime : Q) (rest : list Q) : Q :=
  if Float_true curtime then
    let time' := if Qlt_bool curtime time then curtime else time in
    match rest with
    | [] => time'
    | next :: rest' => FrontEdgeScan time' next rest'
    end
  else time.

Definition FrontEdgeTime (energies times : list Q) : Q :=
  let curtime := TArrayF_At times 0 in
  FrontEdgeScan curtime curtime (drop 1 times).

Section Digitize.

Context (geom : AliPHOSGeometry) (this : AliPHOSDigitizer)
        (run : Collaborators).

Definition nEMC : nat := (GetNModules geom * GetNPhi geom * GetNZ geom)%nat.

Definition nCPV : nat :=
  (nEMC + GetNumberOfCPVPadsZ geom * GetNumberOfCPVPadsPhi geom
          * GetNModules geom)%nat.

Definition primaryoffset (i : nat) : Z :=
  match fARD this with
  | Some GetMask => GetMask i
  | None => Int_t (10000000 * Z.of_nat i)
  end.

(** "Find the first crystal with signal". *)
Fixpoint firstSignal (sdigArray : list (list AliPHOSDigit)) (nextSig : Z)
  : result Z :=
  match sdigArray with
  | [] => Ok nextSig
  | sdigits :: more =>
      curNext ← GetId (SDigits_At sdigits 0);
      firstSignal more (if curNext <? nextSig then curNext else nextSig)
  end.

(** "Find next signal module". *)
Fixpoint findNextSig (sdigArray : list (list AliPHOSDigit)) (index : list nat)
    (nextSig : Z) : result Z :=
  match sdigArray, index with
  | sdigits :: more, ix :: ixs =>
      curNext ← GetId (SDigits_At sdigits ix);
      findNextSig more ixs (if curNext <? nextSig then curNext else nextSig)
  | _, _ => Ok nextSig
  end.

(** The while loop over the digits of one input, EMC: [rest] holds the
    summable digits of the input from position [ix] on. *)
Fixpoint drainEMC (absID shift : Z) (rest : list AliPHOSDigit) (ix : nat)
    (acc : Fold) : result (Fold * nat) :=
  match rest with
  | curSDigit :: rest' =>
      if fId curSDigit =? absID then
        let cur := ShiftPrimary shift curSDigit in
        let digit := digit_plus (fdDigit acc) cur in
        en ← store (fdEnergies acc) (fdContrib acc) (fAmp cur);
        ti ← store (fdTimes acc) (fdContrib acc) (fTime cur);
        drainEMC absID shift rest' (S ix)
                 (mkFold digit (S (fdContrib acc)) en ti)
      else Ok (acc, ix)
  | [] => Ok (acc, ix)
  end.

(** The loop over the inputs, EMC. *)
Fixpoint inputsEMC (absID : Z) (i : nat) (sdigArray : list (list AliPHOSDigit))
    (index : list nat) (acc : Fold) : result (Fold * list nat) :=
  match sdigArray, index with
  | sdigits :: more, ix :: ixs =>
      '(acc1, ix1) ← drainEMC absID (primaryoffset i) (drop ix sdigits) ix acc;
      '(acc2, ixs2) ← inputsEMC absID (S i) more ixs acc1;
      Ok (acc2, ix1 :: ixs2)
  | _, _ => Ok (acc, index)
  end.

(** The same two loops for a CPV cell: no scratch arrays. *)
Fixpoint drainCPV (absID shift : Z) (rest : list AliPHOSDigit) (ix : nat)
    (digit : AliPHOSDigit) : AliPHOSDigit * nat :=
  match rest with
  | curSDigit :: rest' =>
      if fId curSDigit =? absID then
        drainCPV absID shift rest' (S ix)
                 (digit_plus digit (ShiftPrimary shift curSDigit))
      else (digit, ix)
  | [] => (digit, ix)
  end.

Fixpoint inputsCPV (absID : Z) (i : nat) (sdigArray : list (list AliPHOSDigit))
    (index : list nat) (digit : AliPHOSDigit) : AliPHOSDigit * list nat :=
  match sdigArray, index with
  | sdigits :: more, ix :: ixs =>
      let '(digit1, ix1) :=
        drainCPV absID (primaryoffset i) (drop ix sdigits) ix digit in
      let '(digit2, ixs2) := inputsCPV absID (S i) more ixs digit1 in
      (digit2, ix1 :: ixs2)
  | _, _ => (digit, index)
  end.

Section Merge.

Context (sdigArray : list (list AliPHOSDigit)).

Definition input : nat := length sdigArray.

Definition slotOf (absID : Z) : nat := Z.to_nat (absID - 1).

(** The noise digit of the cell [absID], built in place in the slot
    [absID-1] of the digits. *)
Definition putNoise (sigma : Q) (arr : list (option AliPHOSDigit)) (absID : Z)
  : list (option AliPHOSDigit) :=
  let noise := Gaus run sigma absID in
  <[slotOf absID := Some (NoiseDigit absID (SDigitize run noise) TimeOfNoise)]> arr.

(** "Add SDigits from all inputs", EMC: the branch taken when
    [absID == nextSig]; [digits1] is the array with the noise digit of the
    cell in place. *)
Definition addSignalEMC (st : MergeState) (absID : Z)
    (digits1 : list (option AliPHOSDigit)) : result MergeState :=
  digit ← deref (At digits1 (slotOf absID));
  en ← store (energies st) 0 (fAmp digit);
  ti ← store (times st) 0 (fTime digit);
  '(acc, index1) ← inputsEMC absID 0 sdigArray (index st) (mkFold digit 0 en ti);
  let time := FrontEdgeTime (fdEnergies acc) (fdTimes acc) in
  let digits2 := <[slotOf absID := Some (SetTime time (fdDigit acc))]> digits1 in
  next ← findNextSig sdigArray index1 (nextSig st);
  Ok (mkState digits2 next index1
              (TArrayF_Reset (fdEnergies acc)) (TArrayF_Reset (fdTimes acc))).

(** The body of the loop "Put Noise contribution". *)
Definition stepEMC (st : MergeState) (absID : Z) : result MergeState :=
  let digits1 := putNoise (fPinNoise this) (digits st) absID in
  if absID =? nextSig st then addSignalEMC st absID digits1
  else Ok (mkState digits1 (nextSig st) (index st) (energies st) (times st)).

(** "Add SDigits from all inputs", CPV. *)
Definition addSignalCPV (st : MergeState) (absID : Z)
    (digits1 : list (option AliPHOSDigit)) : result MergeState :=
  digit ← deref (At digits1 (slotOf absID));
  let '(digit1, index1) := inputsCPV absID 0 sdigArray (index st) digit in
  let digits2 := <[slotOf absID := Some digit1]> digits1 in
  next ← findNextSig sdigArray index1 (nextSig st);
  Ok (mkState digits2 next index1 (energies st) (times st)).

(** The body of the loop "Now CPV digits (different noise and no timing)". *)
Definition stepCPV (st : MergeState) (absID : Z) : result MergeState :=
  let digits1 := putNoise (fCPVNoise this) (digits st) absID in
  if absID =? nextSig st then addSignalCPV st absID digits1
  else Ok (mkState digits1 (nextSig st) (index st) (energies st) (times st)).

(** The digits array once both loops have run. *)
Definition Merge : result MergeState :=
  first ← firstSignal sdigArray 200000;
  let st0 := mkState (Expand nCPV []) first (replicate input 0%nat)
                     (TArrayF_new input) (TArrayF_new input) in
  st1 ← forM stepEMC (seqZ 1 (Z.of_nat nEMC)) st0;
  forM stepCPV (seqZ (Z.of_nat nEMC + 1) (Z.of_nat nCPV - Z.of_nat nEMC)) st1.

(** "remove digits below thresholds". *)
Definition removeBelow (threshold : Q) (arr : list (option AliPHOSDigit))
    (absID : nat) : result (list (option AliPHOSDigit)) :=
  digit ← deref (At arr absID);
  if Qlt_bool (Calibrate run (fAmp digit)) threshold
  then Ok (RemoveAt arr absID) else Ok arr.

(** "Set indexes in list of digits". *)
Fixpoint setIndexes (i : nat) (arr : list (option AliPHOSDigit))
  : result (list AliPHOSDigit) :=
  match arr with
  | [] => Ok []
  | slot :: more =>
      digit ← deref slot;
      rest ← setIndexes (S i) more;
      Ok (SetIndexInList (Z.of_nat i) digit :: rest)
  end.

Definition Digitize : result (list AliPHOSDigit) :=
  st ← Merge;
  arr1 ← forM (removeBelow (fEMCDigitThreshold this)) (seq 0 nEMC) (digits st);
  arr2 ← forM (removeBelow (fCPVDigitThreshold this)) (seq nEMC (nCPV - nEMC)) arr1;
  let arr3 := Compress arr2 in
  let ndigits := GetEntriesFast arr3 in
  setIndexes 0 (Expand ndigits arr3).

End Merge.
End Digitize.

(** ** The end-to-end scenario *)

Definition geom_4_2 : AliPHOSGeometry :=
  {| GetNModules := 1; GetNPhi := 2; GetNZ := 2;
     GetNumberOfCPVPadsZ := 2; GetNumberOfCPVPadsPhi := 1 |}.

(** Noise fixed at zero, amplitudes kept as they are. *)
Definition quiet : Collaborators :=
  {| Gaus := fun _ _ => 0%Q; SDigitize := fun e => e; Calibrate := fun a => a |}.

Definition sdigit (id : Z) (amp time : Q) (primary : Z) : AliPHOSDigit :=
  {| fId := id; fAmp := amp; fTime := time; fPrimary := [(primary, amp)];
     fIndexInList := 0 |}.


(** Noise fixed at one, amplitudes kept as they are. *)
Definition noisy : Collaborators :=
  {| Gaus := fun _ _ => 1%Q; SDigitize := fun e => e; Calibrate := fun a => a |}.

(** One mixed input: amplitude 1.0 on the cell 2, amplitude 0.5 on the
    cell 6. *)
Definition scenario : list (list AliPHOSDigit) :=
  [[sdigit 2 1 (5 # 1) 0; sdigit 6 (1 # 2) (5 # 1) 1]].

Definition standalone : AliPHOSDigitizer := AliPHOSDigitizer_ctor None.

(** Noise one on the cells of even number and zero on the others,
    amplitudes kept as they are. *)
Definition alternating : Collaborators :=
  {| Gaus := fun _ c => if Z.even c then 1%Q else 0%Q;
     SDigitize := fun e => e; Calibrate := fun a => a |}.

(** Three inputs hitting the cell 2 at the times 7, 3 and 9, and the cell 6
    later. *)
Definition three_inputs : list (list AliPHOSDigit) :=
  [[sdigit 2 1 (7 # 1) 0; sdigit 6 (1 # 2) (5 # 1) 1];
   [sdigit 2 1 (3 # 1) 0; sdigit 6 (1 # 2) (5 # 1) 1];
   [sdigit 2 1 (9 # 1) 0; sdigit 6 (1 # 2) (5 # 1) 1]].

(** One input hitting the CPV cell 5 at the time 3, then the cell 6. *)
Definition cpv_input : list (list AliPHOSDigit) :=
  [[sdigit 5 1 (3 # 1) 0; sdigit 6 (1 # 2) (5 # 1) 1]].

(** Two inputs hitting the CPV cell 5, then the cell 6. *)
Definition two_cpv_inputs : list (list AliPHOSDigit) :=
  [[sdigit 5 1 (3 # 1) 0; sdigit 6 (1 # 2) (5 # 1) 1];
   [sdigit 5 (1 # 2) (4 # 1) 1; sdigit 6 (1 # 2) (5 # 1) 2]].

(** Eight EMC cells and two CPV cells. *)
Definition geom_8_2 : AliPHOSGeometry :=
  {| GetNModules := 1; GetNPhi := 4; GetNZ := 2;
     GetNumberOfCPVPadsZ := 2; GetNumberOfCPVPadsPhi := 1 |}.

(** One input whose cells are not in ascending order. *)
Definition unordered_input : list (list AliPHOSDigit) :=
  [[sdigit 5 1 (5 # 1) 0; sdigit 3 1 (5 # 1) 1; sdigit 7 1 (5 # 1) 2]].

(** Two inputs whose cells are not in ascending order, beginning on
    different cells. *)
Definition two_unordered_inputs : list (list AliPHOSDigit) :=
  [[sdigit 5 1 (5 # 1) 0; sdigit 3 1 (5 # 1) 1; sdigit 7 1 (5 # 1) 2];
   [sdigit 6 1 (4 # 1) 0; sdigit 2 1 (4 # 1) 1; sdigit 9 1 (4 # 1) 2]].

(** One input whose only summable digit lies on the cell 2. *)
Definition single_input : list (list AliPHOSDigit) :=
  [[sdigit 2 1 (5 # 1) 0]].

(** One input with two summable digits on the cell 2. *)
Definition double_hit_input : list (list AliPHOSDigit) :=
  [[sdigit 2 1 (5 # 1) 0; sdigit 2 1 (4 # 1) 1; sdigit 3 1 (5 # 1) 2]].

(** The digitizer under a run digitizer whose masks are all zero. *)
Definition zero_masks : AliPHOSDigitizer :=
  AliPHOSDigitizer_ctor (Some (fun _ => 0)).

(** ** Definitions used by the statements *)

(** The summable digits at the head of an input that lie on the cell
    [absID]: what the while loop over this input consumes. *)
Fixpoint headRun (absID : Z) (rest : list AliPHOSDigit) : list AliPHOSDigit :=
  match rest with
  | cur :: rest' => if fId cur =? absID then cur :: headRun absID rest' else []
  | [] => []
  end.

(** The summable digits the loop over the inputs consumes for the cell
    [absID], in the order of the loop, with their primaries shifted. *)
Fixpoint foldedFrom (this : AliPHOSDigitizer) (absID : Z) (i : nat)
    (sdigArray : list (list AliPHOSDigit)) : list AliPHOSDigit :=
  match sdigArray with
  | [] => []
  | sdigits :: more =>
      (ShiftPrimary (primaryoffset this i) <$> headRun absID sdigits)
        ++ foldedFrom this absID (S i) more
  end.

(** [r] is the least element of [l]. *)
Definition least (r : Q) (l : list Q) : Prop :=
  r ∈ l ∧ Forall (fun x => (r <= x)%Q) l.

Definition nonzero (x : Q) : Prop := ~ (x == 0)%Q.

(** The scratch array [a] after the values [xs] have been assigned through
    the pointer, one after the other: each assignment replaces the array. *)
Definition assigned (a : list Q) (xs : list Q) : list Q :=
  foldl (fun _ x => TArrayF_new (Z.to_nat (Int_of_Float x))) a xs.

(** The read positions after the head runs of the cell [absID] have been
    consumed from the start of every input. *)
Definition runLengths (absID : Z) (sdigArray : list (list AliPHOSDigit))
  : list nat := (fun sdigits => length (headRun absID sdigits)) <$> sdigArray.

(** The noise digit of the cell [c]. *)
Definition noiseAt (run : Collaborators) (sigma : Q) (c : Z) : AliPHOSDigit :=
  NoiseDigit c (SDigitize run (Gaus run sigma c)) TimeOfNoise.

(** The digit of the cell [c] after the two loops, [m] being the first cell
    with signal: only the cell [m] receives signal, and only an EMC cell has
    its time set, to the zero [FrontEdgeTime] reads in the scratch array. *)
Definition cellDigit (geom : AliPHOSGeometry) (this : AliPHOSDigitizer)
    (run : Collaborators) (sdigArray : list (list AliPHOSDigit)) (m c : Z)
  : AliPHOSDigit :=
  let emc := c <=? Z.of_nat (nEMC geom) in
  let noise := noiseAt run (if emc then fPinNoise this else fCPVNoise this) c in
  if c =? m then
    let D := foldedFrom this c 0 sdigArray in
    let digit := foldl digit_plus noise D in
    if emc then SetTime 0 digit else digit
  else noise.

(** A scratch array after the two loops, [m] being the first cell with
    signal and a cell of the detector; [value] is [fAmp] for [energies] and
    [fTime] for [times].  With [m] a CPV cell the array is as allocated;
    with [m] an EMC cell it was assigned the value of the noise digit, then
    the values of the summable digits folded, and was reset. *)
Definition mergedScratch (geom : AliPHOSGeometry) (this : AliPHOSDigitizer)
    (run : Collaborators) (sdigArray : list (list AliPHOSDigit)) (m : Z)
    (value : AliPHOSDigit -> Q) : list Q :=
  if m <=? Z.of_nat (nEMC geom)
  then TArrayF_Reset
         (assigned [] (value <$> noiseAt run (fPinNoise this) m
                                 :: foldedFrom this m 0 sdigArray))
  else TArrayF_new (input sdigArray).

(** The primaries an input contributes once shifted by its offset. *)
Definition remapped (this : AliPHOSDigitizer) (i : nat)
    (sdigits : list AliPHOSDigit) : list Z :=
  flat_map (fun r => fst <$> fPrimary (ShiftPrimary (primaryoffset this i) r))
           sdigits.

(** The threshold of the class of the cell [c]. *)
Definition classThreshold (geom : AliPHOSGeometry) (this : AliPHOSDigitizer)
    (c : Z) : Q :=
  if c <=? Z.of_nat (nEMC geom) then fEMCDigitThreshold this
  else fCPVDigitThreshold this.

(** A digit survives when its calibrated amplitude is not strictly below the
    threshold of its class. *)
Definition survives (geom : AliPHOSGeometry) (this : AliPHOSDigitizer)
    (run : Collaborators) (d : AliPHOSDigit) : bool :=
  negb (Qlt_bool (Calibrate run (fAmp d)) (classThreshold geom this (fId d))).

(** The slot of a digit after the threshold [thr] has been applied to it. *)
Definition mask (run : Collaborators) (thr : Q) (d : AliPHOSDigit)
  : option AliPHOSDigit :=
  if Qlt_bool (Calibrate run (fAmp d)) thr then None else Some d.

(** The digits with their positions, counted from [i], as indexes. *)
Fixpoint indexedFrom (i : nat) (ds : list AliPHOSDigit) : list AliPHOSDigit :=
  match ds with
  | [] => []
  | d :: more => SetIndexInList (Z.of_nat i) d :: indexedFrom (S i) more
  end.

(** An array of digits whose first slots are filled and whose last [r] slots
    are empty. *)
Definition arrOf (ds : list AliPHOSDigit) (r : nat) : list (option AliPHOSDigit) :=
  (Some <$> ds) ++ replicate r None.

(** The state with another array of digits. *)
Definition withDigits (st : MergeState) (arr : list (option AliPHOSDigit))
  : MergeState :=
  mkState arr (nextSig st) (index st) (energies st) (times st).

(** The shape shared by the bodies of the two loops over the cells. *)
Definition cellStep (run : Collaborators) (sigma : Q)
    (addSignal : MergeState -> Z -> list (option AliPHOSDigit) -> result MergeState)
    (st : MergeState) (absID : Z) : result MergeState :=
  let digits1 := putNoise run sigma (digits st) absID in
  if absID =? nextSig st then addSignal st absID digits1
  else Ok (withDigits st digits1).

(** ** The inputs posted on the white board *)

(** A folder of "YSAlice/WhiteBoard/SDigits/PHOS": its name and the arrays
    of summable digits it holds, each under its name. *)
Record TFolder : Type := {
  folderName : string;
  folderObjects : list (string * list AliPHOSDigit)
}.

(** [TFolder::FindObject]: the first object of that name, null without
    one. *)
Fixpoint FindObject (objects : list (string * list AliPHOSDigit)) (name : string)
  : option (list AliPHOSDigit) :=
  match objects with
  | [] => None
  | (n, o) :: more => if String.eqb n name then Some o else FindObject more name
  end.

(** [TObjArray::AddAt]: the object is stored within the bounds of the array;
    outside them nothing is stored, the array is not expanded. *)
Definition AddAt {A : Type} (arr : list (option A)) (obj : A) (idx : nat)
  : list (option A) := <[idx := Some obj]> arr.

(** "loop through the sdigits posted to the White Board": the arrays named
    as the digitizer are put into [sdigArray], [input] counting them. *)
Fixpoint collectSDigits (name : string) (folders : list TFolder)
    (sdigArray : list (option (list AliPHOSDigit))) (input : nat)
  : list (option (list AliPHOSDigit)) * nat :=
  match folders with
  | [] => (sdigArray, input)
  | folder :: more =>
      match FindObject (folderObjects folder) name with
      | Some sdigits => collectSDigits name more (AddAt sdigArray sdigits input) (S input)
      | None => collectSDigits name more sdigArray input
      end
  end.

(** The arrays the loops over [i < input] read with [sdigArray->At(i)] and
    call [At] on: a missing one is a fault. *)
Fixpoint inputArrays (sdigArray : list (option (list AliPHOSDigit)))
    (positions : list nat) : result (list (list AliPHOSDigit)) :=
  match positions with
  | [] => Ok []
  | i :: more =>
      sdigits ← deref (At sdigArray i);
      rest ← inputArrays sdigArray more;
      Ok (sdigits :: rest)
  end.

(** [Digitize] from the folders of the white board: [sdigArray] is a
    [TObjArray(2)]. *)
Definition DigitizeFolders (geom : AliPHOSGeometry) (this : AliPHOSDigitizer)
    (run : Collaborators) (name : string) (folders : list TFolder)
  : result (list AliPHOSDigit) :=
  let '(sdigArray, input) := collectSDigits name folders (replicate 2 None) 0 in
  arrays ← inputArrays sdigArray (seq 0 input);
  Digitize geom this run arrays.

(** A [TObjArray] of [c] slots after the objects [found] have been put in
    it with [AddAt], the first at 0, the next at 1 and so on. *)
Definition heldBy {A : Type} (c : nat) (found : list A) : list (option A) :=
  (Some <$> take c found) ++ replicate (c - length found) None.

(** ** PrintDigits *)

(** [strstr(haystack, needle)] as a truth value. *)
Fixpoint strstr (haystack needle : string) : bool :=
  if String.prefix needle haystack then true
  else match haystack with
       | EmptyString => false
       | String _ rest => strstr rest needle
       end.

(** Modelled from the spec: [AliPHOSDigit::GetNprimary], the number of
    primaries of the digit. *)
Definition GetNprimary (d : AliPHOSDigit) : nat := length (fPrimary d).

(** A line of the table of digits: Id, Amplitude, Index, Nprim and the
    list of primaries. *)
Record Row : Type := mkRow {
  rowId : Z;
  rowAmp : Q;
  rowIndex : Z;
  rowNprim : nat;
  rowPrimaries : list Z
}.

Definition printRow (d : AliPHOSDigit) : Row :=
  mkRow (fId d) (fAmp d) (fIndexInList d) (GetNprimary d) (fst <$> fPrimary d).

(** "loop over digits": the loop ends at the first digit beyond [maxEmc];
    a digit without primary is passed over. *)
Fixpoint printEMC (maxEmc : Z) (digits : list AliPHOSDigit) : list Row :=
  match digits with
  | [] => []
  | digit :: more =>
      if fId digit <=? maxEmc then
        if (GetNprimary digit =? 0)%nat then printEMC maxEmc more
        else printRow digit :: printEMC maxEmc more
      else []
  end.

(** "loop over CPV digits": every digit beyond [maxEmc]. *)
Fixpoint printCPV (maxEmc : Z) (digits : list AliPHOSDigit) : list Row :=
  match digits with
  | [] => []
  | digit :: more =>
      if maxEmc <? fId digit then printRow digit :: printCPV maxEmc more
      else printCPV maxEmc more
  end.

(** The two tables [PrintDigits] writes, as the lines of their digits;
    [digits] is the array of digits the getter gives and [maxEmc] is
    [GetNModules()*GetNCristalsInModule()]. *)
Definition PrintDigits (opt : string) (maxEmc : Z)
    (digits : list AliPHOSDigit) : list Row * list Row :=
  (if strstr opt "all" || strstr opt "EMC"
   then printEMC maxEmc digits else [],
   if strstr opt "all" || strstr opt "CPV"
   then printCPV maxEmc digits else []).

(** ** Exec and WriteDigits *)

(** What a branch of TreeD is filled with. *)
Inductive BranchEntry : Type :=
| DigitsEntry (digits : list AliPHOSDigit)
| DigitizerEntry (digitizer : AliPHOSDigitizer).

(** A branch of TreeD: its name, its title, the file set for it, and its
    entries. *)
Record TBranch : Type := mkBranch {
  branchName : string;
  branchTitle : string;
  branchFile : option string;
  branchEntries : list BranchEntry
}.

(** The run digitizer: its TreeD and the trees of its inputs, a missing
    tree being null; the tree of an input is given as the folder of the
    white board into which the getter reads it. *)
Record AliRunDigitizer : Type := {
  GetTreeD : option (list TBranch);
  GetInputTreeS : list (option TFolder)
}.

(** [gAlice]: its TreeD and, for every entry of TreeE, the folders of the
    white board once the getter has posted the event. *)
Record AliRun : Type := {
  TreeD : option (list TBranch);
  TreeE : list (list TFolder)
}.

(** How [Exec] ends. *)
Inductive ExecOutcome : Type :=
| Printed                      (* option "print" *)
| NoTreeD                      (* "Can not find TreeD" *)
| DigitsBranchExists           (* "Digits branch with name ... already exits" *)
| DigitizerBranchExists        (* "Digitizer branch with name ... already exits" *)
| NoInput                      (* "No Input" *)
| Faulted (f : Fault) (ievent : nat)
| Done (nevents : nat).

Section Exec.

Context (geom : AliPHOSGeometry) (this : AliPHOSDigitizer)
        (run : Collaborators).

(** [name] is [GetName()]; [baseFile] is [gAlice->GetBaseFile()] when
    CONFIG_SPLIT_FILE is set. *)
Context (name : string) (baseFile : option string).

(** [WriteDigits]: a branch "PHOS" and a branch "AliPHOSDigitizer" are made
    in TreeD ([TTree::Branch] adds a branch to the list of branches), titled
    with the name of the digitizer, and filled with one entry each. *)
Definition WriteDigits (digits : list AliPHOSDigit) (treeD : list TBranch)
  : list TBranch :=
  let file := (fun base => base +:+ "/PHOS.Digits.root") <$> baseFile in
  treeD ++ [mkBranch "PHOS" name file [DigitsEntry digits];
            mkBranch "AliPHOSDigitizer" name file [DigitizerEntry this]].

(** "Check, if this branch already exits". *)
Fixpoint findBranches (lob : list TBranch) (phosfound digitizerfound : bool)
  : bool * bool :=
  match lob with
  | [] => (phosfound, digitizerfound)
  | branch :: more =>
      if negb phosfound || negb digitizerfound then
        if String.eqb (branchName branch) "PHOS"
           && String.eqb (branchTitle branch) name
        then findBranches more true digitizerfound
        else if String.eqb (branchName branch) "AliPHOSDigitizer"
                && String.eqb (branchTitle branch) name
        then findBranches more phosfound true
        else findBranches more phosfound digitizerfound
      else (phosfound, digitizerfound)
  end.

(** The loop over the inputs of the run digitizer: it ends at the first
    missing tree; the trees read are so many folders of the white board. *)
Fixpoint ReadTreeS (inputs : list (option TFolder)) : option (list TFolder) :=
  match inputs with
  | [] => Some []
  | None :: _ => None
  | Some treeS :: more => (fun rest => treeS :: rest) <$> ReadTreeS more
  end.

(** The loop over the events without run digitizer: [Digitize] takes the
    inputs of the event from the folders of the white board. *)
Fixpoint eventLoop (events : list (list TFolder)) (ievent : nat)
    (treeD : list TBranch) : list TBranch * ExecOutcome :=
  match events with
  | [] => (treeD, Done ievent)
  | folders :: more =>
      match DigitizeFolders geom this run name folders with
      | Ok digits => eventLoop more (S ievent) (WriteDigits digits treeD)
      | Crash f => (treeD, Faulted f ievent)
      end
  end.

(** [Exec]: the TreeD it leaves and how it ends.  What it prints is not
    kept, so that the options "tim" and "deb" do not show; the call of
    [Init] for a digitizer without name is left out. *)
Definition Exec (opt : string) (ard : AliRunDigitizer) (gAlice : AliRun)
  : option (list TBranch) * ExecOutcome :=
  let treeD := match fARD this with
               | Some _ => GetTreeD ard
               | None => TreeD gAlice
               end in
  if strstr opt "print" then (treeD, Printed)
  else
    match treeD with
    | None => (None, NoTreeD)
    | Some lob =>
        let '(phosfound, digitizerfound) := findBranches lob false false in
        if phosfound then (Some lob, DigitsBranchExists)
        else if digitizerfound then (Some lob, DigitizerBranchExists)
        else
          match fARD this with
          | Some _ =>
              match ReadTreeS (GetInputTreeS ard) with
              | None => (Some lob, NoInput)
              | Some folders =>
                  match DigitizeFolders geom this run name folders with
                  | Ok digits => (Some (WriteDigits digits lob), Done 1)
                  | Crash f => (Some lob, Faulted f 0)
                  end
              end
          | None =>
              let '(lob', outcome) := eventLoop (TreeE gAlice) 0 lob in
              (Some lob', outcome)
          end
    end.

End Exec.

(** The white board of an event: one folder for every input, holding the
    summable digits of the input under the name "Default". *)
Definition whiteBoard (sdigArray : list (list AliPHOSDigit)) : list TFolder :=
  (fun sdigits => {| folderName := "galice.root";
                     folderObjects := [("Default", sdigits)] |}) <$> sdigArray.

(** A run of two events, with an empty TreeD. *)
Definition run_of_two_events : AliRun :=
  {| TreeD := Some []; TreeE := [whiteBoard scenario; whiteBoard cpv_input] |}.

(** A run of three events, the second with an input that is used up by the
    first cell with signal. *)
Definition run_with_fault : AliRun :=
  {| TreeD := Some [];
     TreeE := [whiteBoard scenario; whiteBoard single_input;
               whiteBoard three_inputs] |}.

Definition no_run_digitizer : AliRunDigitizer :=
  {| GetTreeD := None; GetInputTreeS := [] |}.

(** Two inputs, the first beginning on the cell 2 and the second on the
    cell 3. *)
Definition two_inputs : list (list AliPHOSDigit) :=
  [[sdigit 2 1 (7 # 1) 0; sdigit 6 (1 # 2) (5 # 1) 1];
   [sdigit 3 1 (3 # 1) 0; sdigit 6 (1 # 2) (5 # 1) 1]].

(** A run digitizer with an empty TreeD and the trees of two inputs. *)
Definition run_digitizer_of_two : AliRunDigitizer :=
  {| GetTreeD := Some []; GetInputTreeS := Some <$> whiteBoard two_inputs |}.

(** The digitizer under a run digitizer whose masks are [10000000*i]. *)
Definition under_run_digitizer : AliPHOSDigitizer :=
  AliPHOSDigitizer_ctor (Some (fun i => 10000000 * Z.of_nat i)).

(** ** Comparisons *)

Ltac mem := solve [repeat constructor | rewrite !elem_of_cons; auto].

Lemma Qlt_bool_iff (x y : Q) : Qlt_bool x y = true <-> (x < y)%Q.
Proof.
  unfold Qlt_bool. rewrite negb_true_iff. split.
  - intros H. apply Qnot_le_lt. intros Hle.
    apply Qle_bool_iff in Hle. congruence.
  - intros H. destruct (Qle_bool y x) eqn:E; [|reflexivity].
    apply Qle_bool_iff in E. exfalso. exact (Qlt_not_le _ _ H E).
Qed.

Lemma Qlt_bool_false (x y : Q) : Qlt_bool x y = false <-> (y <= x)%Q.
Proof.
  unfold Qlt_bool. rewrite negb_false_iff. apply Qle_bool_iff.
Qed.

Lemma Float_true_iff (x : Q) : Float_true x = true <-> nonzero x.
Proof.
  unfold Float_true, nonzero. rewrite negb_true_iff. split.
  - intros H Heq. apply Qeq_bool_iff in Heq. congruence.
  - intros H. destruct (Qeq_bool x 0) eqn:E; [|reflexivity].
    apply Qeq_bool_iff in E. contradiction.
Qed.

(** ** Loops *)

Lemma bind_Ok {A B : Type} (m : result A) (k : A -> result B) (b : B) :
  m ≫= k = Ok b -> exists a, m = Ok a /\ k a = Ok b.
Proof. destruct m as [a|f]; simpl; [eauto | discriminate]. Qed.

Lemma forM_app {S X : Type} (body : S -> X -> result S) (xs ys : list X) (s : S) :
  forM body (xs ++ ys) s = forM body xs s ≫= forM body ys.
Proof.
  revert s. induction xs as [|x xs IH]; intros s; simpl; [reflexivity|].
  destruct (body s x) as [s'|f]; simpl; [apply IH | reflexivity].
Qed.

(** ** FrontEdgeTime *)

Lemma FrontEdgeScan_zero (time : Q) (rest : list Q) :
  FrontEdgeScan time 0 rest = time.
Proof. destruct rest; reflexivity. Qed.

(** On a cleared array, whatever its length, [FrontEdgeTime] is zero: the
    slot 0 is read as zero and the loop is not entered. *)
Lemma FrontEdgeTime_new (en : list Q) (k : nat) :
  FrontEdgeTime en (TArrayF_new k) = 0%Q.
Proof.
  destruct k as [|k]; [reflexivity|].
  unfold FrontEdgeTime, TArrayF_At. simpl. apply FrontEdgeScan_zero.
Qed.

(** ** Scratch arrays *)

(** Whatever is assigned through the pointer, the array is left cleared. *)
Lemma assigned_new (xs : list Q) :
  forall k : nat, exists k', assigned (TArrayF_new k) xs = TArrayF_new k'.
Proof.
  induction xs as [|x xs IH]; intros k; simpl; [eauto|]. apply IH.
Qed.

Lemma FrontEdgeTime_assigned (en : list Q) (k : nat) (xs : list Q) :
  FrontEdgeTime en (assigned (TArrayF_new k) xs) = 0%Q.
Proof. destruct (assigned_new xs k) as [k' ->]. apply FrontEdgeTime_new. Qed.

(** ** The loops over the inputs *)

Lemma Fold_eta (acc : Fold) :
  acc = mkFold (fdDigit acc) (fdContrib acc) (fdEnergies acc) (fdTimes acc).
Proof. destruct acc; reflexivity. Qed.

(** The while loop over one input consumes the head run of the cell; it
    faults exactly when a summable digit is folded with [contrib] at 1 or
    more, that is from the second summable digit of the cell on. *)
Lemma drainEMC_spec (absID shift : Z) (rest : list AliPHOSDigit) :
  forall (ix : nat) (acc : Fold),
    (fdContrib acc <= 1)%nat ->
    let D := ShiftPrimary shift <$> headRun absID rest in
    drainEMC absID shift rest ix acc =
      if decide (fdContrib acc + length D <= 1)%nat
      then Ok (mkFold (foldl digit_plus (fdDigit acc) D)
                      (fdContrib acc + length D)
                      (assigned (fdEnergies acc) (fAmp <$> D))
                      (assigned (fdTimes acc) (fTime <$> D)),
               (ix + length D)%nat)
      else Crash ScratchOverflow.
Proof.
  induction rest as [|cur rest IH]; intros ix acc Hc; simpl.
  - rewrite decide_True by lia. rewrite !Nat.add_0_r.
    rewrite <- Fold_eta. reflexivity.
  - destruct (fId cur =? absID) eqn:E; simpl.
    + destruct acc as [d c en ti]. simpl in *. destruct c as [|c]; simpl.
      * rewrite IH by (simpl; lia). simpl. unfold fmap in *.
        repeat case_decide; try lia; try reflexivity.
        do 2 f_equal. lia.
      * rewrite decide_False by lia. reflexivity.
    + rewrite decide_True by lia. rewrite !Nat.add_0_r.
      rewrite <- Fold_eta. reflexivity.
Qed.

Section Inputs.

Context (this : AliPHOSDigitizer).

Lemma foldedFrom_length (absID : Z) (sdigArray : list (list AliPHOSDigit)) :
  forall i : nat,
    length (foldedFrom this absID i sdigArray)
    = sum_list (runLengths absID sdigArray).
Proof.
  induction sdigArray as [|s more IH]; intros i; simpl; [reflexivity|].
  rewrite length_app, length_fmap, IH. reflexivity.
Qed.

(** The loop over the inputs, started at the beginning of every input. *)
Lemma inputsEMC_spec (absID : Z) (sdigArray : list (list AliPHOSDigit)) :
  forall (i : nat) (acc : Fold),
    (fdContrib acc <= 1)%nat ->
    let D := foldedFrom this absID i sdigArray in
    inputsEMC this absID i sdigArray (replicate (length sdigArray) 0%nat) acc =
      if decide (fdContrib acc + length D <= 1)%nat
      then Ok (mkFold (foldl digit_plus (fdDigit acc) D)
                      (fdContrib acc + length D)
                      (assigned (fdEnergies acc) (fAmp <$> D))
                      (assigned (fdTimes acc) (fTime <$> D)),
               runLengths absID sdigArray)
      else Crash ScratchOverflow.
Proof.
  induction sdigArray as [|s more IH]; intros i acc Hc; simpl.
  - rewrite decide_True by lia. rewrite !Nat.add_0_r.
    rewrite <- Fold_eta. reflexivity.
  - rewrite (drainEMC_spec absID _ s 0 acc Hc).
    set (D1 := ShiftPrimary (primaryoffset this i) <$> headRun absID s).
    set (D2 := foldedFrom this absID (S i) more).
    rewrite length_app.
    destruct (decide (fdContrib acc + length D1 <= 1)%nat) as [H1|H1]; simpl.
    + rewrite (IH (S i) _) by (simpl; lia). simpl. fold D2.
      destruct (decide (fdContrib acc + length D1 + length D2 <= 1)%nat) as [H2|H2];
        [rewrite decide_True by lia | rewrite decide_False by lia; reflexivity].
      simpl. rewrite foldl_app, !fmap_app. unfold assigned. rewrite !foldl_app.
      subst D1. rewrite length_fmap.
      do 2 f_equal. f_equal. lia.
    + rewrite decide_False by lia. reflexivity.
Qed.

Lemma drainCPV_spec (absID shift : Z) (rest : list AliPHOSDigit) :
  forall (ix : nat) (digit : AliPHOSDigit),
    let D := ShiftPrimary shift <$> headRun absID rest in
    drainCPV absID shift rest ix digit
    = (foldl digit_plus digit D, (ix + length D)%nat).
Proof.
  induction rest as [|cur rest IH]; intros ix digit; simpl.
  - rewrite Nat.add_0_r. reflexivity.
  - destruct (fId cur =? absID) eqn:E; simpl.
    + rewrite IH. f_equal. unfold fmap. lia.
    + rewrite Nat.add_0_r. reflexivity.
Qed.

Lemma inputsCPV_spec (absID : Z) (sdigArray : list (list AliPHOSDigit)) :
  forall (i : nat) (digit : AliPHOSDigit),
    inputsCPV this absID i sdigArray (replicate (length sdigArray) 0%nat) digit
    = (foldl digit_plus digit (foldedFrom this absID i sdigArray),
       runLengths absID sdigArray).
Proof.
  induction sdigArray as [|s more IH]; intros i digit; simpl; [reflexivity|].
  rewrite drainCPV_spec, IH, foldl_app, length_fmap. reflexivity.
Qed.

End Inputs.

(** ** Looking for the next cell with signal *)

Lemma findNextSig_le (sdigArray : list (list AliPHOSDigit)) :
  forall (index : list nat) (n n' : Z),
    findNextSig sdigArray index n = Ok n' -> n' <= n.
Proof.
  induction sdigArray as [|s more IH]; intros index n n' H; simpl in H.
  - injection H as <-. lia.
  - destruct index as [|ix ixs]; [injection H as <-; lia|].
    destruct (SDigits_At s ix) as [d|]; simpl in H; [|discriminate].
    apply IH in H. destruct (fId d <? n) eqn:E; lia.
Qed.

Lemma findNextSig_total (sdigArray : list (list AliPHOSDigit)) :
  forall (index : list nat) (n : Z),
    Forall2 (fun s ix => (ix < length s)%nat) sdigArray index ->
    exists n', findNextSig sdigArray index n = Ok n'.
Proof.
  induction sdigArray as [|s more IH]; intros index n H; simpl.
  - eauto.
  - destruct index as [|ix ixs]; [eauto|].
    apply Forall2_cons in H as [Hix H].
    unfold SDigits_At. destruct (lookup_lt_is_Some_2 s ix Hix) as [d ->].
    simpl. apply IH, H.
Qed.

(** A read position past the last summable digit of its input makes the
    scan fault. *)
Lemma findNextSig_exhausted (sdigArray : list (list AliPHOSDigit)) :
  forall (index : list nat) (n : Z) (i : nat) (s : list AliPHOSDigit) (ix : nat),
    sdigArray !! i = Some s -> index !! i = Some ix -> (length s <= ix)%nat ->
    findNextSig sdigArray index n = Crash NullDereference.
Proof.
  induction sdigArray as [|s0 more IH]; intros index n i s ix Hs Hix Hlen.
  - discriminate.
  - destruct index as [|ix0 ixs]; [discriminate|]. simpl.
    destruct i as [|i]; simpl in Hs, Hix.
    + injection Hs as ->. injection Hix as ->.
      unfold SDigits_At. rewrite (lookup_ge_None_2 s ix Hlen). reflexivity.
    + destruct (SDigits_At s0 ix0) as [d|]; simpl; [|reflexivity].
      eapply IH; eauto.
Qed.

Lemma firstSignal_total (sdigArray : list (list AliPHOSDigit)) :
  forall n : Z,
    Forall (fun s => s <> []) sdigArray ->
    exists m, firstSignal sdigArray n = Ok m.
Proof.
  induction sdigArray as [|s more IH]; intros n H; simpl; [eauto|].
  apply Forall_cons in H as [Hs H].
  destruct s as [|d s]; [contradiction|]. simpl. apply IH, H.
Qed.

(** An input without summable digits makes the first scan fault. *)
Lemma firstSignal_empty (sdigArray : list (list AliPHOSDigit)) :
  forall n : Z,
    [] ∈ sdigArray -> firstSignal sdigArray n = Crash NullDereference.
Proof.
  induction sdigArray as [|s more IH]; intros n H.
  - apply elem_of_nil in H. contradiction.
  - simpl. apply elem_of_cons in H as [<- | H]; [reflexivity|].
    destruct (SDigits_At s 0) as [d|]; simpl; [apply IH, H | reflexivity].
Qed.

(** ** The loops over the cells *)

Lemma withDigits_id (st : MergeState) : withDigits st (digits st) = st.
Proof. destruct st; reflexivity. Qed.

Section Cells.

Context (run : Collaborators) (sigma : Q)
        (addSignal : MergeState -> Z -> list (option AliPHOSDigit)
                     -> result MergeState).

Hypothesis addSignal_le : forall st x arr st',
  addSignal st x arr = Ok st' -> nextSig st' <= nextSig st.

Lemma cellStep_other (st : MergeState) (x : Z) :
  x <> nextSig st ->
  cellStep run sigma addSignal st x
  = Ok (withDigits st (putNoise run sigma (digits st) x)).
Proof.
  intros Hx. unfold cellStep. apply Z.eqb_neq in Hx. rewrite Hx. reflexivity.
Qed.

Lemma cellStep_signal (st : MergeState) :
  cellStep run sigma addSignal st (nextSig st)
  = addSignal st (nextSig st) (putNoise run sigma (digits st) (nextSig st)).
Proof. unfold cellStep. rewrite Z.eqb_refl. reflexivity. Qed.

(** Away from the next cell with signal, the loop only writes noise. *)
Lemma cells_noise (xs : list Z) :
  forall st : MergeState,
    (forall x, x ∈ xs -> x <> nextSig st) ->
    forM (cellStep run sigma addSignal) xs st
    = Ok (withDigits st (foldl (putNoise run sigma) (digits st) xs)).
Proof.
  induction xs as [|x xs IH]; intros st H; cbn [forM foldl].
  - rewrite withDigits_id. reflexivity.
  - rewrite cellStep_other by (apply H; mem). simpl.
    rewrite IH; [reflexivity|].
    intros y Hy. simpl. apply H. apply elem_of_cons. auto.
Qed.

(** When the next cell with signal is among the cells of the loop, it is the
    only one that receives signal. *)
Lemma cells_signal (a k : Z) (st : MergeState) :
  a <= nextSig st < a + k ->
  forM (cellStep run sigma addSignal) (seqZ a k) st =
    let m := nextSig st in
    let pre := foldl (putNoise run sigma) (digits st) (seqZ a (m - a)) in
    st1 ← addSignal (withDigits st pre) m (putNoise run sigma pre m);
    Ok (withDigits st1
          (foldl (putNoise run sigma) (digits st1) (seqZ (m + 1) (a + k - m - 1)))).
Proof.
  intros Hm. set (m := nextSig st).
  replace k with ((m - a) + (1 + (a + k - m - 1))) at 1 by lia.
  rewrite seqZ_app by lia. rewrite forM_app.
  rewrite cells_noise.
  2:{ intros x Hx. apply elem_of_seqZ in Hx. fold m. lia. }
  simpl. replace (a + (m - a)) with m by lia.
  rewrite seqZ_cons by lia. cbn [forM].
  change m with (nextSig (withDigits st (foldl (putNoise run sigma) (digits st)
                                               (seqZ a (m - a))))) at 1.
  rewrite cellStep_signal. simpl. fold m.
  destruct (addSignal _ m _) as [st1|f] eqn:E; simpl; [|reflexivity].
  apply addSignal_le in E. simpl in E. fold m in E.
  replace (Z.pred (1 + (a + k - m - 1))) with (a + k - m - 1) by lia.
  replace (Z.succ m) with (m + 1) by lia.
  apply cells_noise.
  intros x Hx. apply elem_of_seqZ in Hx. lia.
Qed.

End Cells.

(** ** The array of digits while it is filled *)

Lemma Expand_nil (n : nat) : Expand n (@nil (option AliPHOSDigit)) = arrOf [] n.
Proof.
  unfold Expand, arrOf. rewrite take_nil. simpl. rewrite Nat.sub_0_r.
  reflexivity.
Qed.

Section Fill.

Context (run : Collaborators) (sigma : Q).

Lemma putNoise_arrOf (ds : list AliPHOSDigit) (r : nat) (a : Z) :
  a = Z.of_nat (length ds) + 1 ->
  putNoise run sigma (arrOf ds (S r)) a = arrOf (ds ++ [noiseAt run sigma a]) r.
Proof.
  intros Ha. unfold putNoise, arrOf, slotOf. cbv zeta.
  replace (Z.to_nat (a - 1)) with (length (Some <$> ds) + 0)%nat
    by (rewrite length_fmap; lia).
  rewrite insert_app_r. simpl. rewrite fmap_app, <- app_assoc. reflexivity.
Qed.

Lemma insert_arrOf_last (ds : list AliPHOSDigit) (x d : AliPHOSDigit) (r : nat)
    (a : Z) :
  a = Z.of_nat (length ds) + 1 ->
  <[slotOf a := Some d]> (arrOf (ds ++ [x]) r) = arrOf (ds ++ [d]) r.
Proof.
  intros Ha. unfold arrOf, slotOf.
  rewrite !fmap_app, <- !app_assoc.
  replace (Z.to_nat (a - 1)) with (length (Some <$> ds) + 0)%nat
    by (rewrite length_fmap; lia).
  rewrite insert_app_r. reflexivity.
Qed.

Lemma At_arrOf_last (ds : list AliPHOSDigit) (x : AliPHOSDigit) (r : nat) (a : Z) :
  a = Z.of_nat (length ds) + 1 ->
  At (arrOf (ds ++ [x]) r) (slotOf a) = Some x.
Proof.
  intros Ha. unfold At, arrOf, slotOf.
  rewrite fmap_app, <- app_assoc.
  replace (Z.to_nat (a - 1)) with (length (Some <$> ds) + 0)%nat
    by (rewrite length_fmap; lia).
  rewrite lookup_app_r by lia.
  replace (length (Some <$> ds) + 0 - length (Some <$> ds))%nat with 0%nat by lia.
  reflexivity.
Qed.

Lemma fill_arrOf_nat (k : nat) :
  forall (ds : list AliPHOSDigit) (r : nat) (a : Z),
    a = Z.of_nat (length ds) + 1 -> (k <= r)%nat ->
    foldl (putNoise run sigma) (arrOf ds r) (seqZ a (Z.of_nat k))
    = arrOf (ds ++ (noiseAt run sigma <$> seqZ a (Z.of_nat k))) (r - k).
Proof.
  induction k as [|k IH]; intros ds r a Ha Hk.
  - simpl. rewrite app_nil_r, Nat.sub_0_r. reflexivity.
  - rewrite seqZ_cons by lia. simpl foldl.
    destruct r as [|r]; [lia|].
    rewrite putNoise_arrOf by exact Ha.
    replace (Z.pred (Z.of_nat (S k))) with (Z.of_nat k) by lia.
    rewrite IH; [| rewrite length_app; simpl; lia | lia].
    rewrite fmap_cons, <- app_assoc. reflexivity.
Qed.

Lemma fill_arrOf (k : Z) (ds : list AliPHOSDigit) (r : nat) (a : Z) :
  a = Z.of_nat (length ds) + 1 -> 0 <= k <= Z.of_nat r ->
  foldl (putNoise run sigma) (arrOf ds r) (seqZ a k)
  = arrOf (ds ++ (noiseAt run sigma <$> seqZ a k)) (r - Z.to_nat k).
Proof.
  intros Ha Hk. rewrite <- (Z2Nat.id k) at 1 2 by lia.
  apply fill_arrOf_nat; [exact Ha | lia].
Qed.

End Fill.

(** ** Adding the signal of a cell *)

Section AddSignal.

Context (this : AliPHOSDigitizer) (sdigArray : list (list AliPHOSDigit)).

Lemma addSignalEMC_le (st : MergeState) (x : Z) (arr : list (option AliPHOSDigit))
    (st' : MergeState) :
  addSignalEMC this sdigArray st x arr = Ok st' -> nextSig st' <= nextSig st.
Proof.
  unfold addSignalEMC. intros H.
  apply bind_Ok in H as (digit & _ & H).
  apply bind_Ok in H as (en & _ & H).
  apply bind_Ok in H as (ti & _ & H).
  apply bind_Ok in H as ([acc index1] & _ & H).
  apply bind_Ok in H as (next & Hnext & H).
  injection H as <-. simpl. eapply findNextSig_le, Hnext.
Qed.

Lemma addSignalCPV_le (st : MergeState) (x : Z) (arr : list (option AliPHOSDigit))
    (st' : MergeState) :
  addSignalCPV this sdigArray st x arr = Ok st' -> nextSig st' <= nextSig st.
Proof.
  unfold addSignalCPV. intros H.
  apply bind_Ok in H as (digit & _ & H).
  destruct (inputsCPV _ _ _ _ _ _) as [digit1 index1].
  apply bind_Ok in H as (next & Hnext & H).
  injection H as <-. simpl. eapply findNextSig_le, Hnext.
Qed.

(** The signal of an EMC cell, added with every input still at its start:
    the time set is the zero read in the scratch array, and a second
    summable digit on the cell is a fault. *)
Lemma addSignalEMC_fresh (st : MergeState) (absID : Z)
    (digits1 : list (option AliPHOSDigit)) (d0 : AliPHOSDigit) :
  index st = replicate (input sdigArray) 0%nat ->
  At digits1 (slotOf absID) = Some d0 ->
  let D := foldedFrom this absID 0 sdigArray in
  addSignalEMC this sdigArray st absID digits1 =
    if decide (length D <= 1)%nat
    then
      next ← findNextSig sdigArray (runLengths absID sdigArray) (nextSig st);
      Ok (mkState
            (<[slotOf absID := Some (SetTime 0 (foldl digit_plus d0 D))]> digits1)
            next (runLengths absID sdigArray)
            (TArrayF_Reset (assigned [] (fAmp <$> d0 :: D)))
            (TArrayF_Reset (assigned [] (fTime <$> d0 :: D))))
    else Crash ScratchOverflow.
Proof.
  intros Hix HAt D.
  unfold addSignalEMC. rewrite HAt, Hix. simpl.
  unfold input at 1.
  rewrite (inputsEMC_spec this absID sdigArray 0 _) by (simpl; lia).
  simpl. fold D.
  destruct (decide (length D <= 1)%nat) as [HD|HD]; [|reflexivity].
  simpl. rewrite FrontEdgeTime_assigned. reflexivity.
Qed.

Lemma addSignalCPV_fresh (st : MergeState) (absID : Z)
    (digits1 : list (option AliPHOSDigit)) (d0 : AliPHOSDigit) :
  index st = replicate (input sdigArray) 0%nat ->
  At digits1 (slotOf absID) = Some d0 ->
  addSignalCPV this sdigArray st absID digits1 =
    next ← findNextSig sdigArray (runLengths absID sdigArray) (nextSig st);
    Ok (mkState
          (<[slotOf absID :=
               Some (foldl digit_plus d0 (foldedFrom this absID 0 sdigArray))]>
             digits1)
          next (runLengths absID sdigArray) (energies st) (times st)).
Proof.
  intros Hix HAt. unfold addSignalCPV. rewrite HAt, Hix. simpl.
  unfold input. rewrite inputsCPV_spec. reflexivity.
Qed.

End AddSignal.

Section Loops.

Context (this : AliPHOSDigitizer) (run : Collaborators)
        (sdigArray : list (list AliPHOSDigit)).

Lemma stepEMC_cellStep :
  stepEMC this run sdigArray
  = cellStep run (fPinNoise this) (addSignalEMC this sdigArray).
Proof. reflexivity. Qed.

Lemma stepCPV_cellStep :
  stepCPV this run sdigArray
  = cellStep run (fCPVNoise this) (addSignalCPV this sdigArray).
Proof. reflexivity. Qed.

(** A loop over cells none of which is the next cell with signal. *)
Lemma loop_noise (sigma : Q)
    (addSignal : MergeState -> Z -> list (option AliPHOSDigit) -> result MergeState)
    (st : MergeState) (ds : list AliPHOSDigit) (r : nat) (a k : Z) :
  digits st = arrOf ds r ->
  a = Z.of_nat (length ds) + 1 -> 0 <= k <= Z.of_nat r ->
  (forall x, a <= x < a + k -> x <> nextSig st) ->
  forM (cellStep run sigma addSignal) (seqZ a k) st
  = Ok (withDigits st (arrOf (ds ++ (noiseAt run sigma <$> seqZ a k))
                             (r - Z.to_nat k))).
Proof.
  intros Hd Ha Hk Hx. rewrite cells_noise.
  - rewrite Hd, fill_arrOf by assumption. reflexivity.
  - intros x Hin. apply elem_of_seqZ in Hin. apply Hx. lia.
Qed.

(** The EMC loop when the next cell with signal is among its cells. *)
Lemma loop_signal_EMC (st : MergeState) (ds : list AliPHOSDigit) (r : nat)
    (a k : Z) :
  digits st = arrOf ds r ->
  a = Z.of_nat (length ds) + 1 -> 0 <= k <= Z.of_nat r ->
  a <= nextSig st < a + k ->
  index st = replicate (input sdigArray) 0%nat ->
  let m := nextSig st in
  let D := foldedFrom this m 0 sdigArray in
  let noise := noiseAt run (fPinNoise this) m in
  let dm := SetTime 0 (foldl digit_plus noise D) in
  forM (stepEMC this run sdigArray) (seqZ a k) st =
    if decide (length D <= 1)%nat
    then
      next ← findNextSig sdigArray (runLengths m sdigArray) m;
      Ok (mkState
            (arrOf (ds ++ (noiseAt run (fPinNoise this) <$> seqZ a (m - a))
                       ++ dm :: (noiseAt run (fPinNoise this)
                                   <$> seqZ (m + 1) (a + k - m - 1)))
                   (r - Z.to_nat k))
            next (runLengths m sdigArray)
            (TArrayF_Reset (assigned [] (fAmp <$> noise :: D)))
            (TArrayF_Reset (assigned [] (fTime <$> noise :: D))))
    else Crash ScratchOverflow.
Proof.
  intros Hd Ha Hk Hm Hix m D noise dm.
  rewrite stepEMC_cellStep.
  rewrite cells_signal by (exact (addSignalEMC_le this sdigArray) || exact Hm).
  fold m. cbv zeta. rewrite Hd, fill_arrOf by (assumption || lia).
  set (pre := ds ++ (noiseAt run (fPinNoise this) <$> seqZ a (m - a))).
  assert (Hpre : m = Z.of_nat (length pre) + 1).
  { subst pre. rewrite length_app, length_fmap, length_seqZ. lia. }
  replace (r - Z.to_nat (m - a))%nat with (S (r - Z.to_nat (m - a) - 1)) by lia.
  rewrite putNoise_arrOf by exact Hpre.
  rewrite (addSignalEMC_fresh this sdigArray _ m _ noise);
    [| exact Hix | apply At_arrOf_last; exact Hpre].
  fold D. simpl nextSig. fold m.
  destruct (decide (length D <= 1)%nat) as [HD|HD]; [|reflexivity].
  destruct (findNextSig sdigArray (runLengths m sdigArray) m) as [next|f];
    simpl; [|reflexivity].
  fold dm. rewrite insert_arrOf_last by exact Hpre.
  rewrite fill_arrOf; [| rewrite length_app; simpl; lia | lia].
  unfold withDigits. simpl. f_equal. f_equal. f_equal.
  - subst pre. rewrite <- !app_assoc. reflexivity.
  - lia.
Qed.

(** The CPV loop when the next cell with signal is among its cells. *)
Lemma loop_signal_CPV (st : MergeState) (ds : list AliPHOSDigit) (r : nat)
    (a k : Z) :
  digits st = arrOf ds r ->
  a = Z.of_nat (length ds) + 1 -> 0 <= k <= Z.of_nat r ->
  a <= nextSig st < a + k ->
  index st = replicate (input sdigArray) 0%nat ->
  let m := nextSig st in
  let D := foldedFrom this m 0 sdigArray in
  let dm := foldl digit_plus (noiseAt run (fCPVNoise this) m) D in
  forM (stepCPV this run sdigArray) (seqZ a k) st =
    next ← findNextSig sdigArray (runLengths m sdigArray) m;
    Ok (mkState
          (arrOf (ds ++ (noiseAt run (fCPVNoise this) <$> seqZ a (m - a))
                     ++ dm :: (noiseAt run (fCPVNoise this)
                                 <$> seqZ (m + 1) (a + k - m - 1)))
                 (r - Z.to_nat k))
          next (runLengths m sdigArray) (energies st) (times st)).
Proof.
  intros Hd Ha Hk Hm Hix m D dm.
  rewrite stepCPV_cellStep.
  rewrite cells_signal by (exact (addSignalCPV_le this sdigArray) || exact Hm).
  fold m. cbv zeta. rewrite Hd, fill_arrOf by (assumption || lia).
  set (pre := ds ++ (noiseAt run (fCPVNoise this) <$> seqZ a (m - a))).
  assert (Hpre : m = Z.of_nat (length pre) + 1).
  { subst pre. rewrite length_app, length_fmap, length_seqZ. lia. }
  replace (r - Z.to_nat (m - a))%nat with (S (r - Z.to_nat (m - a) - 1)) by lia.
  rewrite putNoise_arrOf by exact Hpre.
  rewrite (addSignalCPV_fresh this sdigArray _ m _ (noiseAt run (fCPVNoise this) m));
    [| exact Hix | apply At_arrOf_last; exact Hpre].
  fold D. simpl nextSig. fold m.
  destruct (findNextSig sdigArray (runLengths m sdigArray) m) as [next|f];
    simpl; [|reflexivity].
  fold dm. rewrite insert_arrOf_last by exact Hpre.
  rewrite fill_arrOf; [| rewrite length_app; simpl; lia | lia].
  unfold withDigits. simpl. f_equal. f_equal. f_equal.
  - subst pre. rewrite <- !app_assoc. reflexivity.
  - lia.
Qed.

End Loops.

(** ** The merge *)

Section MergeSpec.

Context (geom : AliPHOSGeometry) (this : AliPHOSDigitizer)
        (run : Collaborators) (sdigArray : list (list AliPHOSDigit)).

Lemma nEMC_le_nCPV : (nEMC geom <= nCPV geom)%nat.
Proof. unfold nCPV. lia. Qed.

Lemma fmap_seqZ_ext {B : Type} (f g : Z -> B) (a k : Z) :
  (forall x, a <= x < a + k -> f x = g x) ->
  f <$> seqZ a k = g <$> seqZ a k.
Proof.
  intros H. apply list_fmap_ext. intros i x Hx.
  apply H. apply lookup_seqZ in Hx. lia.
Qed.

Lemma cellDigit_noise_EMC (m c : Z) :
  c <> m -> c <= Z.of_nat (nEMC geom) ->
  cellDigit geom this run sdigArray m c = noiseAt run (fPinNoise this) c.
Proof.
  intros Hc He. unfold cellDigit.
  apply Z.eqb_neq in Hc. apply Z.leb_le in He. rewrite Hc, He. reflexivity.
Qed.

Lemma cellDigit_noise_CPV (m c : Z) :
  c <> m -> Z.of_nat (nEMC geom) < c ->
  cellDigit geom this run sdigArray m c = noiseAt run (fCPVNoise this) c.
Proof.
  intros Hc He. unfold cellDigit.
  apply Z.eqb_neq in Hc. apply Z.leb_gt in He. rewrite Hc, He. reflexivity.
Qed.

Lemma cellDigit_signal_EMC (m : Z) :
  m <= Z.of_nat (nEMC geom) ->
  cellDigit geom this run sdigArray m m
  = SetTime 0 (foldl digit_plus (noiseAt run (fPinNoise this) m)
                     (foldedFrom this m 0 sdigArray)).
Proof.
  intros He. unfold cellDigit.
  apply Z.leb_le in He. rewrite Z.eqb_refl, He. reflexivity.
Qed.

Lemma cellDigit_signal_CPV (m : Z) :
  Z.of_nat (nEMC geom) < m ->
  cellDigit geom this run sdigArray m m
  = foldl digit_plus (noiseAt run (fCPVNoise this) m)
          (foldedFrom this m 0 sdigArray).
Proof.
  intros He. unfold cellDigit.
  apply Z.leb_gt in He. rewrite Z.eqb_refl, He. reflexivity.
Qed.

(** The cells of the detector, cut at a cell [m] of the range [a, a+k). *)
Lemma seqZ_cut (a k m : Z) :
  a <= m < a + k ->
  seqZ a k = seqZ a (m - a) ++ m :: seqZ (m + 1) (a + k - m - 1).
Proof.
  intros H. replace k with ((m - a) + (1 + (a + k - m - 1))) at 1 by lia.
  rewrite seqZ_app by lia. f_equal.
  replace (a + (m - a)) with m by lia.
  rewrite seqZ_cons by lia. f_equal. f_equal; lia.
Qed.

Lemma cells_EMC_CPV :
  seqZ 1 (Z.of_nat (nCPV geom))
  = seqZ 1 (Z.of_nat (nEMC geom))
      ++ seqZ (Z.of_nat (nEMC geom) + 1)
              (Z.of_nat (nCPV geom) - Z.of_nat (nEMC geom)).
Proof.
  pose proof nEMC_le_nCPV.
  replace (Z.of_nat (nCPV geom))
    with (Z.of_nat (nEMC geom) + (Z.of_nat (nCPV geom) - Z.of_nat (nEMC geom)))
    at 1 by lia.
  rewrite seqZ_app by lia. f_equal. f_equal. lia.
Qed.

Local Abbreviation cell m := (cellDigit geom this run sdigArray m).
Local Abbreviation noiseEMC := (noiseAt run (fPinNoise this)).
Local Abbreviation noiseCPV := (noiseAt run (fCPVNoise this)).

Lemma cells_no_signal (m : Z) :
  ~ 1 <= m <= Z.of_nat (nCPV geom) ->
  cell m <$> seqZ 1 (Z.of_nat (nCPV geom))
  = (noiseEMC <$> seqZ 1 (Z.of_nat (nEMC geom)))
      ++ (noiseCPV <$> seqZ (Z.of_nat (nEMC geom) + 1)
                            (Z.of_nat (nCPV geom) - Z.of_nat (nEMC geom))).
Proof.
  intros Hm. pose proof nEMC_le_nCPV as Hle.
  rewrite cells_EMC_CPV, fmap_app.
  rewrite (fmap_seqZ_ext (cell m) noiseEMC 1)
    by (intros; apply cellDigit_noise_EMC; lia).
  rewrite (fmap_seqZ_ext (cell m) noiseCPV (Z.of_nat (nEMC geom) + 1))
    by (intros; apply cellDigit_noise_CPV; lia).
  reflexivity.
Qed.

Lemma cells_signal_EMC (m : Z) :
  1 <= m <= Z.of_nat (nEMC geom) ->
  cell m <$> seqZ 1 (Z.of_nat (nCPV geom))
  = ((noiseEMC <$> seqZ 1 (m - 1))
       ++ cell m m :: (noiseEMC <$> seqZ (m + 1) (1 + Z.of_nat (nEMC geom) - m - 1)))
      ++ (noiseCPV <$> seqZ (Z.of_nat (nEMC geom) + 1)
                            (Z.of_nat (nCPV geom) - Z.of_nat (nEMC geom))).
Proof.
  intros Hm. pose proof nEMC_le_nCPV as Hle.
  rewrite cells_EMC_CPV, fmap_app.
  rewrite (seqZ_cut 1 (Z.of_nat (nEMC geom)) m) by lia.
  rewrite fmap_app, fmap_cons.
  rewrite (fmap_seqZ_ext (cell m) noiseEMC 1)
    by (intros; apply cellDigit_noise_EMC; lia).
  rewrite (fmap_seqZ_ext (cell m) noiseEMC (m + 1))
    by (intros; apply cellDigit_noise_EMC; lia).
  rewrite (fmap_seqZ_ext (cell m) noiseCPV (Z.of_nat (nEMC geom) + 1))
    by (intros; apply cellDigit_noise_CPV; lia).
  reflexivity.
Qed.

Lemma cells_signal_CPV (m : Z) :
  Z.of_nat (nEMC geom) < m <= Z.of_nat (nCPV geom) ->
  cell m <$> seqZ 1 (Z.of_nat (nCPV geom))
  = (noiseEMC <$> seqZ 1 (Z.of_nat (nEMC geom)))
      ++ (noiseCPV <$> seqZ (Z.of_nat (nEMC geom) + 1)
                            (m - (Z.of_nat (nEMC geom) + 1)))
      ++ cell m m
      :: (noiseCPV <$> seqZ (m + 1)
                            (Z.of_nat (nEMC geom) + 1
                             + (Z.of_nat (nCPV geom) - Z.of_nat (nEMC geom))
                             - m - 1)).
Proof.
  intros Hm.
  rewrite cells_EMC_CPV, fmap_app.
  rewrite (seqZ_cut (Z.of_nat (nEMC geom) + 1) _ m) by lia.
  rewrite fmap_app, fmap_cons.
  rewrite (fmap_seqZ_ext (cell m) noiseEMC 1)
    by (intros; apply cellDigit_noise_EMC; lia).
  rewrite (fmap_seqZ_ext (cell m) noiseCPV (Z.of_nat (nEMC geom) + 1))
    by (intros; apply cellDigit_noise_CPV; lia).
  rewrite (fmap_seqZ_ext (cell m) noiseCPV (m + 1))
    by (intros; apply cellDigit_noise_CPV; lia).
  reflexivity.
Qed.

(** What the two loops compute.  With [m] the first cell with signal: no
    other cell receives signal; when [m] is a cell of the detector, the
    merge faults on the scratch arrays if [m] is an EMC cell and the inputs
    begin with more than one summable digit of it, and it faults in the
    scan for the next cell if an input has no summable digit left. *)
Theorem Merge_spec :
  Merge geom this run sdigArray =
    m ← firstSignal sdigArray 200000;
    let n := input sdigArray in
    let final :=
      arrOf (cellDigit geom this run sdigArray m
               <$> seqZ 1 (Z.of_nat (nCPV geom))) 0 in
    if decide (1 <= m <= Z.of_nat (nCPV geom)) then
      if decide (m <= Z.of_nat (nEMC geom) ->
                 (length (foldedFrom this m 0 sdigArray) <= 1)%nat)
      then
        next ← findNextSig sdigArray (runLengths m sdigArray) m;
        Ok (mkState final next (runLengths m sdigArray)
                    (mergedScratch geom this run sdigArray m fAmp)
                    (mergedScratch geom this run sdigArray m fTime))
      else Crash ScratchOverflow
    else
      Ok (mkState final m (replicate n 0%nat) (TArrayF_new n) (TArrayF_new n)).
Proof.
  pose proof nEMC_le_nCPV as Hle.
  unfold Merge.
  destruct (firstSignal sdigArray 200000) as [m|f]; simpl; [|reflexivity].
  rewrite Expand_nil.
  set (n := input sdigArray).
  set (st0 := mkState (arrOf [] (nCPV geom)) m (replicate n 0%nat)
                      (TArrayF_new n) (TArrayF_new n)).
  destruct (decide (1 <= m <= Z.of_nat (nCPV geom))) as [Hin|Hout].
  - destruct (decide (m <= Z.of_nat (nEMC geom))) as [He|He].
    + (* the first cell with signal is an EMC cell *)
      assert (Ee : (m <=? Z.of_nat (nEMC geom)) = true) by (apply Z.leb_le, He).
      rewrite (loop_signal_EMC this run sdigArray st0 [] (nCPV geom));
        try reflexivity; simpl; try lia.
      destruct (decide (length (foldedFrom this m 0 sdigArray) <= 1)%nat)
        as [HD|HD].
      2:{ rewrite decide_False by tauto. reflexivity. }
      rewrite decide_True by tauto.
      destruct (findNextSig sdigArray (runLengths m sdigArray) m) as [next|f] eqn:En;
        simpl; [|reflexivity].
      apply findNextSig_le in En.
      rewrite stepCPV_cellStep.
      erewrite loop_noise; [| reflexivity | | | ]; simpl.
      * unfold withDigits, mergedScratch. rewrite Ee. simpl. f_equal.
        rewrite cells_signal_EMC by lia.
        rewrite cellDigit_signal_EMC by lia.
        do 2 f_equal. unfold n. lia.
      * rewrite !length_app, !length_fmap, !length_seqZ. simpl.
        rewrite !length_fmap, !length_seqZ. lia.
      * lia.
      * intros x Hx. lia.
    + (* the first cell with signal is a CPV cell *)
      assert (Ee : (m <=? Z.of_nat (nEMC geom)) = false) by (apply Z.leb_gt; lia).
      rewrite decide_True by (intros ?; lia).
      rewrite stepEMC_cellStep.
      erewrite loop_noise; [| reflexivity | reflexivity | | ]; simpl; try lia.
      rewrite (loop_signal_CPV this run sdigArray _
                 (noiseAt run (fPinNoise this) <$> seqZ 1 (Z.of_nat (nEMC geom)))
                 (nCPV geom - Z.to_nat (Z.of_nat (nEMC geom))));
        try reflexivity; simpl;
        try (rewrite ?length_fmap, ?length_seqZ; lia).
      destruct (findNextSig sdigArray (runLengths m sdigArray) m) as [next|f];
        simpl; [|reflexivity].
      unfold mergedScratch. rewrite Ee. f_equal. f_equal.
      rewrite cells_signal_CPV by lia.
      rewrite cellDigit_signal_CPV by lia.
      f_equal. lia.
  - (* no cell of the detector is the first cell with signal *)
    rewrite stepEMC_cellStep.
    erewrite loop_noise; [| reflexivity | reflexivity | | ]; simpl; try lia.
    rewrite stepCPV_cellStep.
    erewrite loop_noise; [| reflexivity | | | ]; simpl;
      try (rewrite ?length_fmap, ?length_seqZ; lia).
    unfold withDigits. simpl. f_equal. f_equal.
    rewrite cells_no_signal by exact Hout.
    f_equal. lia.
Qed.

End MergeSpec.

(** ** Thresholds, compression and indexes *)

Lemma removeBelow_at (run : Collaborators) (thr : Q)
    (pre : list (option AliPHOSDigit)) (d : AliPHOSDigit)
    (post : list (option AliPHOSDigit)) :
  removeBelow run thr (pre ++ Some d :: post) (length pre)
  = Ok (pre ++ mask run thr d :: post).
Proof.
  unfold removeBelow, At, RemoveAt, mask.
  rewrite lookup_app_r by lia. rewrite Nat.sub_diag. simpl.
  destruct (Qlt_bool (Calibrate run (fAmp d)) thr); [|reflexivity].
  replace (length pre) with (length pre + 0)%nat at 1 by lia.
  rewrite insert_app_r. reflexivity.
Qed.

Lemma forM_removeBelow (run : Collaborators) (thr : Q) (mid : list AliPHOSDigit) :
  forall pre post : list (option AliPHOSDigit),
    forM (removeBelow run thr) (seq (length pre) (length mid))
         (pre ++ (Some <$> mid) ++ post)
    = Ok (pre ++ (mask run thr <$> mid) ++ post).
Proof.
  induction mid as [|d mid IH]; intros pre post; [reflexivity|].
  rewrite fmap_cons. cbn [length seq forM app].
  rewrite removeBelow_at. simpl.
  replace (S (length pre)) with (length (pre ++ [mask run thr d]))
    by (rewrite length_app; simpl; lia).
  replace (pre ++ mask run thr d :: (Some <$> mid) ++ post)
    with ((pre ++ [mask run thr d]) ++ (Some <$> mid) ++ post)
    by (rewrite <- app_assoc; reflexivity).
  rewrite IH, <- app_assoc. reflexivity.
Qed.

Lemma forM_removeBelow_0 (run : Collaborators) (thr : Q)
    (mid : list AliPHOSDigit) (post : list (option AliPHOSDigit)) :
  forM (removeBelow run thr) (seq 0 (length mid)) ((Some <$> mid) ++ post)
  = Ok ((mask run thr <$> mid) ++ post).
Proof. exact (forM_removeBelow run thr mid [] post). Qed.

Lemma omap_mask (run : Collaborators) (thr : Q) (ds : list AliPHOSDigit) :
  omap id (mask run thr <$> ds)
  = List.filter (fun d => negb (Qlt_bool (Calibrate run (fAmp d)) thr)) ds.
Proof.
  induction ds as [|d ds IH]; simpl; [reflexivity|].
  unfold mask at 1. destruct (Qlt_bool (Calibrate run (fAmp d)) thr); simpl.
  - exact IH.
  - f_equal. exact IH.
Qed.

Lemma omap_Some (ds : list AliPHOSDigit) : omap id (Some <$> ds) = ds.
Proof.
  induction ds as [|d ds IH]; simpl; [reflexivity|]. f_equal. exact IH.
Qed.

Lemma Compress_arrOf (arr : list (option AliPHOSDigit)) :
  Compress arr = arrOf (omap id arr) (length arr - length (omap id arr)).
Proof. reflexivity. Qed.

Lemma GetEntriesFast_arrOf (ds : list AliPHOSDigit) (r : nat) :
  GetEntriesFast (arrOf ds r) = length ds.
Proof.
  unfold arrOf. induction ds as [|d ds IH].
  - induction r as [|r IHr]; [reflexivity|].
    cbn [fmap list_fmap app replicate GetEntriesFast] in *.
    rewrite IHr. reflexivity.
  - rewrite fmap_cons. cbn [app GetEntriesFast]. rewrite IH. reflexivity.
Qed.

Lemma Expand_arrOf (ds : list AliPHOSDigit) (r : nat) :
  Expand (length ds) (arrOf ds r) = Some <$> ds.
Proof.
  unfold Expand, arrOf.
  rewrite take_app_length' by (rewrite length_fmap; reflexivity).
  rewrite length_app, length_fmap.
  replace (length ds - (length ds + length (replicate r None)))%nat with 0%nat by lia.
  simpl. apply app_nil_r.
Qed.

Lemma setIndexes_Some (ds : list AliPHOSDigit) :
  forall i : nat, setIndexes i (Some <$> ds) = Ok (indexedFrom i ds).
Proof.
  induction ds as [|d ds IH]; intros i; [reflexivity|].
  rewrite fmap_cons. cbn [setIndexes indexedFrom]. rewrite IH. reflexivity.
Qed.

Lemma indexedFrom_length (ds : list AliPHOSDigit) :
  forall i : nat, length (indexedFrom i ds) = length ds.
Proof. induction ds as [|d ds IH]; intros i; simpl; [|rewrite IH]; reflexivity. Qed.

Lemma indexedFrom_index (ds : list AliPHOSDigit) :
  forall i : nat,
    fIndexInList <$> indexedFrom i ds = Z.of_nat <$> seq i (length ds).
Proof.
  induction ds as [|d ds IH]; intros i; [reflexivity|].
  cbn [indexedFrom length seq]. rewrite !fmap_cons, IH. reflexivity.
Qed.

Lemma indexedFrom_id (ds : list AliPHOSDigit) :
  forall i : nat, fId <$> indexedFrom i ds = fId <$> ds.
Proof.
  induction ds as [|d ds IH]; intros i; [reflexivity|].
  cbn [indexedFrom]. rewrite !fmap_cons, IH. reflexivity.
Qed.

(** Removing elements keeps a list of cells in ascending order. *)
Lemma filter_ascending (f : AliPHOSDigit -> bool) (ds : list AliPHOSDigit) :
  StronglySorted Z.lt (fId <$> ds) ->
  StronglySorted Z.lt (fId <$> List.filter f ds).
Proof.
  induction ds as [|d ds IH]; simpl; intros H; [constructor|].
  apply StronglySorted_inv in H as [Hs Hd].
  destruct (f d); simpl; [|apply IH, Hs].
  constructor; [apply IH, Hs|].
  apply Forall_forall. intros x Hx.
  apply list_elem_of_fmap in Hx as (y & -> & Hy).
  apply list_elem_of_In, filter_In in Hy as [Hy _].
  rewrite Forall_forall in Hd. apply Hd.
  apply list_elem_of_fmap_2, list_elem_of_In, Hy.
Qed.

Lemma seqZ_ascending (k : nat) :
  forall a : Z, StronglySorted Z.lt (seqZ a (Z.of_nat k)).
Proof.
  induction k as [|k IH]; intros a; [constructor|].
  rewrite seqZ_cons by lia.
  replace (Z.pred (Z.of_nat (S k))) with (Z.of_nat k) by lia.
  constructor; [apply IH|].
  apply Forall_forall. intros x Hx. apply elem_of_seqZ in Hx. lia.
Qed.

(** ** What the digits of the merge are *)

Lemma foldl_digit_plus_id (D : list AliPHOSDigit) :
  forall d : AliPHOSDigit, fId (foldl digit_plus d D) = fId d.
Proof. induction D as [|s D IH]; intros d; simpl; [|rewrite IH]; reflexivity. Qed.

Lemma foldl_digit_plus_time (D : list AliPHOSDigit) :
  forall d : AliPHOSDigit, fTime (foldl digit_plus d D) = fTime d.
Proof. induction D as [|s D IH]; intros d; simpl; [|rewrite IH]; reflexivity. Qed.

Section DigitizeSpec.

Context (geom : AliPHOSGeometry) (this : AliPHOSDigitizer)
        (run : Collaborators) (sdigArray : list (list AliPHOSDigit)).

Local Abbreviation cell m := (cellDigit geom this run sdigArray m).

Lemma cellDigit_id (m c : Z) : fId (cell m c) = c.
Proof.
  unfold cellDigit.
  destruct (c =? m); [|reflexivity].
  destruct (c <=? Z.of_nat (nEMC geom)); simpl;
    rewrite foldl_digit_plus_id; reflexivity.
Qed.

(** The digits of a merge that completes, and what its completion tells
    about the first cell with signal. *)
Lemma Merge_Ok (st : MergeState) :
  Merge geom this run sdigArray = Ok st ->
  exists m,
    firstSignal sdigArray 200000 = Ok m
    /\ digits st = arrOf (cell m <$> seqZ 1 (Z.of_nat (nCPV geom))) 0
    /\ (1 <= m <= Z.of_nat (nEMC geom) ->
        (length (foldedFrom this m 0 sdigArray) <= 1)%nat)
    /\ (1 <= m <= Z.of_nat (nCPV geom) ->
        exists next, findNextSig sdigArray (runLengths m sdigArray) m = Ok next).
Proof.
  rewrite Merge_spec. pose proof (nEMC_le_nCPV geom) as Hle.
  destruct (firstSignal sdigArray 200000) as [m|f]; simpl; [|discriminate].
  intros H. exists m. split; [reflexivity|].
  destruct (decide (1 <= m <= Z.of_nat (nCPV geom))) as [Hin|Hout].
  - destruct (decide (m <= Z.of_nat (nEMC geom) -> _)) as [HD|HD];
      [|discriminate].
    destruct (findNextSig sdigArray (runLengths m sdigArray) m) as [next|f];
      simpl in H; [|discriminate].
    injection H as <-. simpl. split; [reflexivity|].
    split; [intros [_ He]; exact (HD He) | eauto].
  - injection H as <-. simpl. split; [reflexivity|]. split; intros; lia.
Qed.

Lemma survives_EMC (d : AliPHOSDigit) :
  fId d <= Z.of_nat (nEMC geom) ->
  survives geom this run d
  = negb (Qlt_bool (Calibrate run (fAmp d)) (fEMCDigitThreshold this)).
Proof.
  intros H. unfold survives, classThreshold.
  apply Z.leb_le in H. rewrite H. reflexivity.
Qed.

Lemma survives_CPV (d : AliPHOSDigit) :
  Z.of_nat (nEMC geom) < fId d ->
  survives geom this run d
  = negb (Qlt_bool (Calibrate run (fAmp d)) (fCPVDigitThreshold this)).
Proof.
  intros H. unfold survives, classThreshold.
  apply Z.leb_gt in H. rewrite H. reflexivity.
Qed.

(** [Digitize] is the merge followed by the removal of the digits that do
    not survive, the others keeping their order and receiving their
    positions as indexes. *)
Theorem Digitize_spec :
  Digitize geom this run sdigArray =
    st ← Merge geom this run sdigArray;
    Ok (indexedFrom 0 (List.filter (survives geom this run)
                                   (omap id (digits st)))).
Proof.
  unfold Digitize. pose proof (nEMC_le_nCPV geom) as Hle.
  destruct (Merge geom this run sdigArray) as [st|f] eqn:E; simpl;
    [|reflexivity].
  apply Merge_Ok in E as (m & _ & -> & _).
  rewrite cells_EMC_CPV, fmap_app.
  set (L1 := cell m <$> seqZ 1 (Z.of_nat (nEMC geom))).
  set (L2 := cell m <$> seqZ (Z.of_nat (nEMC geom) + 1)
                             (Z.of_nat (nCPV geom) - Z.of_nat (nEMC geom))).
  assert (H1 : length L1 = nEMC geom)
    by (subst L1; rewrite length_fmap, length_seqZ; lia).
  assert (H2 : length L2 = (nCPV geom - nEMC geom)%nat)
    by (subst L2; rewrite length_fmap, length_seqZ; lia).
  unfold arrOf. rewrite fmap_app, <- app_assoc. simpl replicate.
  rewrite <- H1 at 1.
  rewrite forM_removeBelow_0. simpl.
  rewrite <- H2.
  replace (nEMC geom) with (length (mask run (fEMCDigitThreshold this) <$> L1))
    by (rewrite length_fmap; exact H1).
  rewrite forM_removeBelow. simpl.
  rewrite app_nil_r.
  rewrite Compress_arrOf, GetEntriesFast_arrOf, Expand_arrOf, setIndexes_Some.
  rewrite !omap_app, !omap_mask, !omap_Some. simpl omap. rewrite app_nil_r.
  rewrite List.filter_app. do 3 f_equal.
  - apply List.filter_ext_in. intros d Hd. symmetry. apply survives_EMC.
    apply list_elem_of_In in Hd. subst L1.
    apply list_elem_of_fmap in Hd as (c & -> & Hc).
    rewrite cellDigit_id. apply elem_of_seqZ in Hc. lia.
  - apply List.filter_ext_in. intros d Hd. symmetry. apply survives_CPV.
    apply list_elem_of_In in Hd. subst L2.
    apply list_elem_of_fmap in Hd as (c & -> & Hc).
    rewrite cellDigit_id. apply elem_of_seqZ in Hc. lia.
Qed.

End DigitizeSpec.

(** ** The digit of every cell *)

Section Cell.

Context (geom : AliPHOSGeometry) (this : AliPHOSDigitizer)
        (run : Collaborators) (sdigArray : list (list AliPHOSDigit)).

(** After a merge that completes, every cell of the detector has its digit,
    the one [cellDigit] describes. *)
Lemma merged_cell (st : MergeState) (m c : Z) :
  Merge geom this run sdigArray = Ok st ->
  firstSignal sdigArray 200000 = Ok m ->
  1 <= c <= Z.of_nat (nCPV geom) ->
  At (digits st) (slotOf c) = Some (cellDigit geom this run sdigArray m c).
Proof.
  intros HM Hm Hc. apply Merge_Ok in HM as (m' & Hm' & -> & _).
  rewrite Hm in Hm'. injection Hm' as <-.
  unfold At, arrOf, slotOf. rewrite app_nil_r, !list_lookup_fmap.
  rewrite lookup_seqZ_lt by lia. simpl. do 2 f_equal. lia.
Qed.

End Cell.

(** ** The array of inputs *)

Lemma AddAt_heldBy {A : Type} (c : nat) (found : list A) (x : A) :
  AddAt (heldBy c found) x (length found) = heldBy c (found ++ [x]).
Proof.
  unfold AddAt, heldBy. destruct (decide (length found < c)%nat) as [Hlt|Hge].
  - rewrite take_ge by lia. rewrite take_ge by (rewrite length_app; simpl; lia).
    replace (length found) with (length (Some <$> found) + 0)%nat at 1
      by (rewrite length_fmap; lia).
    rewrite insert_app_r.
    replace (c - length found)%nat with (S (c - length (found ++ [x])))
      by (rewrite length_app; simpl; lia).
    simpl. rewrite fmap_app, <- app_assoc. reflexivity.
  - rewrite list_insert_ge
      by (rewrite length_app, length_fmap, length_take, length_replicate; lia).
    rewrite take_app_le by lia.
    replace (c - length found)%nat with 0%nat by lia.
    replace (c - length (found ++ [x]))%nat with 0%nat
      by (rewrite length_app; lia).
    reflexivity.
Qed.

Lemma collectSDigits_spec (name : string) (folders : list TFolder) (c : nat) :
  forall found : list (list AliPHOSDigit),
    collectSDigits name folders (heldBy c found) (length found)
    = (heldBy c (found ++ omap (fun f => FindObject (folderObjects f) name) folders),
       length (found ++ omap (fun f => FindObject (folderObjects f) name) folders)).
Proof.
  induction folders as [|folder more IH]; intros found; simpl.
  - rewrite app_nil_r. reflexivity.
  - destruct (FindObject (folderObjects folder) name) as [sdigits|]; simpl.
    + rewrite AddAt_heldBy.
      replace (S (length found)) with (length (found ++ [sdigits]))
        by (rewrite length_app; simpl; lia).
      rewrite IH, <- app_assoc. reflexivity.
    + apply IH.
Qed.

Lemma inputArrays_fault (arr : list (option (list AliPHOSDigit)))
    (positions : list nat) (i : nat) :
  i ∈ positions -> At arr i = None ->
  inputArrays arr positions = Crash NullDereference.
Proof.
  intros Hi Hnone. induction positions as [|j more IH].
  - apply elem_of_nil in Hi. contradiction.
  - simpl. destruct (At arr j) as [s|] eqn:E; simpl; [|reflexivity].
    apply elem_of_cons in Hi as [-> | Hi]; [congruence|].
    rewrite (IH Hi). reflexivity.
Qed.

Lemma inputArrays_held (c : nat) (found : list (list AliPHOSDigit)) :
  (length found <= c)%nat ->
  forall pre rest : list (list AliPHOSDigit),
    found = pre ++ rest ->
    inputArrays (heldBy c found) (seq (length pre) (length rest)) = Ok rest.
Proof.
  intros Hc pre rest. revert pre.
  induction rest as [|s rest IH]; intros pre E; [reflexivity|].
  cbn [length seq inputArrays].
  assert (HAt : At (heldBy c found) (length pre) = Some s).
  { unfold At, heldBy. rewrite take_ge by lia. subst found.
    rewrite lookup_app_l
      by (rewrite length_fmap, length_app; simpl; lia).
    rewrite list_lookup_fmap, lookup_app_r by lia.
    rewrite Nat.sub_diag. reflexivity. }
  rewrite HAt. simpl.
  replace (S (length pre)) with (length (pre ++ [s]))
    by (rewrite length_app; simpl; lia).
  rewrite (IH (pre ++ [s])) by (rewrite <- app_assoc; exact E).
  reflexivity.
Qed.

(** [Digitize] from the folders, by the number of arrays found in them. *)
Lemma DigitizeFolders_cases (geom : AliPHOSGeometry) (this : AliPHOSDigitizer)
    (run : Collaborators) (name : string) (folders : list TFolder) :
  DigitizeFolders geom this run name folders =
    let found := omap (fun f => FindObject (folderObjects f) name) folders in
    if decide (length found <= 2)%nat
    then Digitize geom this run found
    else Crash NullDereference.
Proof.
  unfold DigitizeFolders.
  pose proof (collectSDigits_spec name folders 2 []) as C.
  change (@heldBy (list AliPHOSDigit) 2 [])
    with (@replicate (option (list AliPHOSDigit)) 2 None) in C.
  change (length (@nil (list AliPHOSDigit))) with 0%nat in C.
  simpl app in C. rewrite C. clear C.
  set (found := omap (fun f => FindObject (folderObjects f) name) folders).
  cbv zeta. destruct (decide (length found <= 2)%nat) as [Hle|Hgt].
  - pose proof (inputArrays_held 2 found Hle [] found eq_refl) as E.
    change (length (@nil (list AliPHOSDigit))) with 0%nat in E.
    rewrite E. reflexivity.
  - rewrite (inputArrays_fault (heldBy 2 found) _ 2); [reflexivity | |].
    + apply list_elem_of_In, in_seq. lia.
    + unfold At, heldBy.
      rewrite lookup_ge_None_2; [reflexivity|].
      rewrite length_app, length_fmap, length_take, length_replicate. lia.
Qed.

(** * The properties of the digitizer *)

(** ** The next cell with signal *)

(** X16. The merge adds signal to one cell at most, the first cell with signal:
    the scan "Find next signal module" only ever lowers [nextSig], so no
    later cell is found equal to it.  Every other cell of the detector
    keeps its noise digit. *)
Theorem only_first_cell_receives_signal (geom : AliPHOSGeometry)
    (this : AliPHOSDigitizer) (run : Collaborators)
    (sdigArray : list (list AliPHOSDigit)) (st : MergeState) (m c : Z) :
  Merge geom this run sdigArray = Ok st ->
  firstSignal sdigArray 200000 = Ok m ->
  1 <= c <= Z.of_nat (nCPV geom) -> c <> m ->
  At (digits st) (slotOf c)
  = Some (noiseAt run (if c <=? Z.of_nat (nEMC geom)
                       then fPinNoise this else fCPVNoise this) c).
Proof.
  intros HM Hm Hc Hne. rewrite (merged_cell geom this run sdigArray st m c HM Hm Hc).
  unfold cellDigit. apply Z.eqb_neq in Hne. rewrite Hne. reflexivity.
Qed.

(** C1. In the end-to-end scenario (EMC cells 1-4 with threshold 0.01, CPV
    cells 5-6 with threshold 0.09, one input with amplitude 1.0 on the cell 2
    and 0.5 on the cell 6, noise 0) the merge stops after the cell 2: the
    next cell with signal stays 2, the read position of the input stays on
    the summable digit of the cell 6, and the final list holds the digit of
    the cell 2 alone, with the index 0; its time is the zero read in the
    scratch array, not the time 5 of the summable digit. *)
Theorem scenario_final_digits :
  (exists st, Merge geom_4_2 standalone quiet scenario = Ok st
              /\ nextSig st = 2 /\ index st = [1%nat])
  /\ Digitize geom_4_2 standalone quiet scenario
     = Ok [ {| fId := 2; fAmp := 1; fTime := 0; fPrimary := [(0, 1%Q)];
               fIndexInList := 0 |} ].
Proof.
  split; [eexists; split; [vm_compute; reflexivity | split; reflexivity]|].
  vm_compute. reflexivity.
Qed.

(** C2. In the same scenario the digit of the cell 6 leaves the merge with
    the amplitude of its noise, 0: the amplitude 0.5 the input deposits on
    the cell 6 is not added. *)
Theorem scenario_cell_6_amplitude :
  (st ← Merge geom_4_2 standalone quiet scenario;
   deref (At (digits st) (slotOf 6)))
  = Ok (NoiseDigit 6 0 TimeOfNoise)
  /\ sdigit 6 (1 # 2) (5 # 1) 1 ∈ concat scenario.
Proof. split; [vm_compute; reflexivity | repeat constructor]. Qed.

(** ** Faults *)

(** C9. With one input whose only summable digit lies on the cell 2, the
    scan for the next cell after the cell 2 reads the identifier of the
    summable digit at the position 1 of the input, where there is none:
    the digitization faults on the null pointer. *)
Theorem exhausted_input_faults :
  Digitize geom_4_2 standalone quiet single_input = Crash NullDereference
  /\ findNextSig single_input [1%nat] 2 = Crash NullDereference.
Proof. split; vm_compute; reflexivity. Qed.

(** C10. With one input holding two summable digits on the cell 2, the
    scratch arrays are allocated with one slot and the second summable
    digit is folded with [contrib] at 1: [energies[1]] is assigned past the
    one array [energies] points to, and the digitization faults on the
    scratch arrays. *)
Theorem scratch_overflow :
  Digitize geom_4_2 standalone quiet double_hit_input = Crash ScratchOverflow
  /\ length (TArrayF_new (input double_hit_input)) = 1%nat
  /\ length (headRun 2 (concat double_hit_input)) = 2%nat.
Proof. split; [|split]; vm_compute; reflexivity. Qed.

(** C8. An input without any summable digit makes the digitization fault:
    the scan for the first cell with signal reads the identifier of the
    summable digit at the position 0 of every input. *)
Theorem empty_input_faults (geom : AliPHOSGeometry) (this : AliPHOSDigitizer)
    (run : Collaborators) (sdigArray : list (list AliPHOSDigit)) :
  [] ∈ sdigArray ->
  Digitize geom this run sdigArray = Crash NullDereference.
Proof.
  intros H. unfold Digitize, Merge.
  rewrite (firstSignal_empty sdigArray 200000 H). reflexivity.
Qed.

Lemma empty_input_faults_witness :
  Digitize geom_4_2 standalone quiet [[]] = Crash NullDereference.
Proof.
  apply (empty_input_faults geom_4_2 standalone quiet [[]]).
  constructor.
Defined.

(** ** The time of a digit *)

(** C3, in the code.  The EMC cell that receives signal has its time set to
    zero, whatever the times of the summable digits folded into it, of
    which there is one at most: [energies[contrib]] and [times[contrib]]
    subscript the pointers, no time is stored in a slot, and [FrontEdgeTime]
    reads a cleared array.  Every cell that receives no signal, and every
    CPV cell, keeps the time of noise. *)
Theorem time_after_merge (geom : AliPHOSGeometry) (this : AliPHOSDigitizer)
    (run : Collaborators) (sdigArray : list (list AliPHOSDigit))
    (st : MergeState) (m c : Z) :
  Merge geom this run sdigArray = Ok st ->
  firstSignal sdigArray 200000 = Ok m ->
  1 <= c <= Z.of_nat (nCPV geom) ->
  exists d,
    At (digits st) (slotOf c) = Some d
    /\ (c = m -> c <= Z.of_nat (nEMC geom) ->
        fTime d = 0%Q /\ (length (foldedFrom this c 0 sdigArray) <= 1)%nat)
    /\ (c <> m \/ Z.of_nat (nEMC geom) < c -> fTime d = TimeOfNoise).
Proof.
  intros HM Hm Hc.
  exists (cellDigit geom this run sdigArray m c).
  split; [apply merged_cell; assumption|].
  apply Merge_Ok in HM as (m' & Hm' & _ & Hfit & _).
  rewrite Hm in Hm'. injection Hm' as <-.
  unfold cellDigit. split.
  - intros -> He. split; [|apply Hfit; lia].
    apply Z.leb_le in He. rewrite Z.eqb_refl, He. reflexivity.
  - intros Hor. destruct (c =? m) eqn:Ecm; [|reflexivity].
    apply Z.eqb_eq in Ecm. destruct Hor as [Hne | Hcpv]; [contradiction|].
    apply Z.leb_gt in Hcpv. rewrite Hcpv. apply foldl_digit_plus_time.
Qed.

Lemma time_after_merge_witness :
  exists st d,
    Merge geom_4_2 standalone quiet scenario = Ok st
    /\ At (digits st) (slotOf 2) = Some d
    /\ fTime d = 0%Q
    /\ fTime <$> foldedFrom standalone 2 0 scenario = [5 # 1].
Proof.
  destruct (Merge geom_4_2 standalone quiet scenario) as [st|f] eqn:HM;
    [|vm_compute in HM; discriminate].
  destruct (time_after_merge geom_4_2 standalone quiet scenario st 2 2 HM)
    as (d & Hd & Hzero & _).
  - vm_compute. reflexivity.
  - vm_compute. split; discriminate.
  - exists st, d. split; [reflexivity|]. split; [exact Hd|].
    split; [|reflexivity].
    apply Hzero; [reflexivity | vm_compute; discriminate].
Defined.

(** The CPV loop derives no time: the cell 5 receives a summable digit at
    the time 3 and its digit keeps the time of noise. *)
Lemma cpv_cell_keeps_noise_time :
  exists st d,
    Merge geom_4_2 standalone quiet cpv_input = Ok st
    /\ At (digits st) (slotOf 5) = Some d
    /\ fAmp d = 1%Q
    /\ fTime <$> List.filter (fun r => fId r =? 5) (concat cpv_input) = [3 # 1]
    /\ fTime d = TimeOfNoise
    /\ ~ (fTime d == 3 # 1)%Q.
Proof.
  eexists. eexists. split; [vm_compute; reflexivity|].
  split; [vm_compute; reflexivity|].
  repeat split; vm_compute; discriminate.
Qed.

(** ** The primaries of different inputs *)

Lemma Int_t_id (z : Z) : - 2 ^ 31 <= z < 2 ^ 31 -> Int_t z = z.
Proof. intros H. unfold Int_t. rewrite Z.mod_small; lia. Qed.

Lemma remapped_elem (this : AliPHOSDigitizer) (i : nat)
    (sdigits : list AliPHOSDigit) (p : Z) :
  Forall (fun r => Forall (fun pw => 0 <= fst pw < 10000000) (fPrimary r))
         sdigits ->
  p ∈ remapped this i sdigits ->
  exists q, 0 <= q < 10000000 /\ p = Int_t (q + primaryoffset this i).
Proof.
  intros Hsmall Hp. unfold remapped in Hp.
  apply list_elem_of_In, in_flat_map in Hp as (r & Hr & Hp).
  apply list_elem_of_In, list_elem_of_fmap in Hp as ([p' w] & -> & Hpw).
  simpl in Hpw. apply list_elem_of_fmap in Hpw as ([q w'] & E & Hq).
  injection E as -> ->. exists q. split; [|reflexivity].
  rewrite Forall_forall in Hsmall.
  apply list_elem_of_In in Hr. specialize (Hsmall r Hr).
  rewrite Forall_forall in Hsmall. exact (Hsmall _ Hq).
Qed.

(** C4, as the code has it.  The primaries two different inputs contribute
    are different after the shift, provided the primaries of the inputs lie
    in [0, 10000000) and, without a run digitizer, the two inputs are among
    the first 214 (so that [10000000*i] plus a primary fits an [Int_t]);
    with a run digitizer, provided the two masks lie in [0, 2137483647] and
    are at least 10000000 apart. *)
Theorem remapped_disjoint (this : AliPHOSDigitizer) (i j : nat)
    (si sj : list AliPHOSDigit) :
  i <> j ->
  Forall (fun r => Forall (fun pw => 0 <= fst pw < 10000000) (fPrimary r)) si ->
  Forall (fun r => Forall (fun pw => 0 <= fst pw < 10000000) (fPrimary r)) sj ->
  match fARD this with
  | None => (i <= 213 /\ j <= 213)%nat
  | Some GetMask =>
      0 <= GetMask i <= 2137483647 /\ 0 <= GetMask j <= 2137483647
      /\ 10000000 <= Z.abs (GetMask i - GetMask j)
  end ->
  forall p, p ∈ remapped this i si -> p ∉ remapped this j sj.
Proof.
  intros Hij Hi Hj Hsep p Hpi Hpj.
  apply (remapped_elem this i si p Hi) in Hpi as (a & Ha & Ea).
  apply (remapped_elem this j sj p Hj) in Hpj as (b & Hb & Eb).
  unfold primaryoffset in Ea, Eb.
  destruct (fARD this) as [GetMask|].
  - destruct Hsep as (Hmi & Hmj & Hd).
    rewrite Int_t_id in Ea by lia. rewrite Int_t_id in Eb by lia. lia.
  - destruct Hsep as [Hi213 Hj213].
    rewrite (Int_t_id (10000000 * Z.of_nat i)) in Ea by lia.
    rewrite (Int_t_id (10000000 * Z.of_nat j)) in Eb by lia.
    rewrite Int_t_id in Ea by lia. rewrite Int_t_id in Eb by lia. lia.
Qed.

Lemma remapped_disjoint_witness :
  remapped standalone 0 [sdigit 2 1 (5 # 1) 7] = [7]
  /\ remapped standalone 1 [sdigit 2 1 (5 # 1) 7] = [10000007]
  /\ Forall (fun p => p ∉ remapped standalone 1 [sdigit 2 1 (5 # 1) 7])
            (remapped standalone 0 [sdigit 2 1 (5 # 1) 7]).
Proof.
  split; [reflexivity|]. split; [reflexivity|].
  apply Forall_forall.
  apply (remapped_disjoint standalone 0 1).
  - discriminate.
  - repeat constructor; simpl; lia.
  - repeat constructor; simpl; lia.
  - simpl. lia.
Defined.

(** C4, as stated, fails under both policies.  Without a run digitizer the
    primary 10000000 of the input 0 and the primary 0 of the input 1 are
    both shifted to 10000000; with a run digitizer whose masks are equal,
    equal primaries of two inputs stay equal. *)
Lemma offsets_collide :
  (10000000 ∈ remapped standalone 0 [sdigit 2 1 (5 # 1) 10000000]
   /\ 10000000 ∈ remapped standalone 1 [sdigit 2 1 (5 # 1) 0])
  /\ (7 ∈ remapped zero_masks 0 [sdigit 2 1 (5 # 1) 7]
      /\ 7 ∈ remapped zero_masks 1 [sdigit 2 1 (5 # 1) 7]).
Proof. repeat split; vm_compute; constructor. Qed.

(** ** Thresholds and indexes *)

Lemma survives_false (geom : AliPHOSGeometry) (this : AliPHOSDigitizer)
    (run : Collaborators) (d : AliPHOSDigit) :
  survives geom this run d = false
  <-> (Calibrate run (fAmp d) < classThreshold geom this (fId d))%Q.
Proof. unfold survives. rewrite negb_false_iff. apply Qlt_bool_iff. Qed.

Lemma merged_digits (geom : AliPHOSGeometry) (this : AliPHOSDigitizer)
    (run : Collaborators) (sdigArray : list (list AliPHOSDigit))
    (st : MergeState) :
  Merge geom this run sdigArray = Ok st ->
  exists ds, digits st = Some <$> ds
             /\ fId <$> ds = seqZ 1 (Z.of_nat (nCPV geom)).
Proof.
  intros HM. apply Merge_Ok in HM as (m & _ & -> & _).
  eexists. split; [unfold arrOf; apply app_nil_r|].
  rewrite <- list_fmap_compose.
  rewrite <- (list_fmap_id (seqZ 1 (Z.of_nat (nCPV geom)))) at 2.
  apply list_fmap_ext. intros k c _. simpl. apply cellDigit_id.
Qed.

(** C5. After the merge every cell of the detector has its digit; the final
    list holds, in the order of the cells, the digits that survive, and a
    digit does not survive exactly when its calibrated amplitude is
    strictly below the threshold of the class of its cell. *)
Theorem threshold_removal (geom : AliPHOSGeometry) (this : AliPHOSDigitizer)
    (run : Collaborators) (sdigArray : list (list AliPHOSDigit))
    (st : MergeState) :
  Merge geom this run sdigArray = Ok st ->
  exists ds,
    digits st = Some <$> ds
    /\ fId <$> ds = seqZ 1 (Z.of_nat (nCPV geom))
    /\ Digitize geom this run sdigArray
       = Ok (indexedFrom 0 (List.filter (survives geom this run) ds))
    /\ (forall d, survives geom this run d = false
                  <-> (Calibrate run (fAmp d)
                       < (if fId d <=? Z.of_nat (nEMC geom)
                          then fEMCDigitThreshold this
                          else fCPVDigitThreshold this))%Q).
Proof.
  intros HM. destruct (merged_digits geom this run sdigArray st HM) as (ds & Hds & Hid).
  exists ds. split; [exact Hds|]. split; [exact Hid|]. split.
  - rewrite Digitize_spec, HM. simpl. rewrite Hds, omap_Some. reflexivity.
  - intros d. apply survives_false.
Qed.

Lemma threshold_removal_witness :
  exists st ds out,
    Merge geom_4_2 standalone alternating scenario = Ok st
    /\ digits st = Some <$> ds
    /\ fId <$> ds = [1; 2; 3; 4; 5; 6]
    /\ Digitize geom_4_2 standalone alternating scenario = Ok out
    /\ out = indexedFrom 0 (List.filter (survives geom_4_2 standalone alternating) ds)
    /\ fId <$> out = [2; 4; 6].
Proof.
  destruct (Merge geom_4_2 standalone alternating scenario) as [st|f] eqn:HM;
    [|vm_compute in HM; discriminate].
  destruct (Digitize geom_4_2 standalone alternating scenario) as [out|f] eqn:HC;
    [|vm_compute in HC; discriminate].
  destruct (threshold_removal geom_4_2 standalone alternating scenario st HM)
    as (ds & Hds & Hid & HD & _).
  rewrite HC in HD. injection HD as HD.
  exists st, ds, out.
  split; [reflexivity|]. split; [exact Hds|]. split; [exact Hid|].
  split; [reflexivity|]. split; [exact HD|].
  vm_compute in HC. injection HC as <-. reflexivity.
Defined.

(** C6. The digitization of a merge that completes returns as many digits as
    survive their thresholds, on the cells of the survivors; their indexes
    are 0, 1, ..., count-1 in the order of the list, and their cells are in
    strictly ascending order. *)
Theorem index_density (geom : AliPHOSGeometry) (this : AliPHOSDigitizer)
    (run : Collaborators) (sdigArray : list (list AliPHOSDigit))
    (st : MergeState) :
  Merge geom this run sdigArray = Ok st ->
  exists out,
    Digitize geom this run sdigArray = Ok out
    /\ length out
       = length (List.filter (survives geom this run) (omap id (digits st)))
    /\ fId <$> out
       = fId <$> List.filter (survives geom this run) (omap id (digits st))
    /\ fIndexInList <$> out = Z.of_nat <$> seq 0 (length out)
    /\ StronglySorted Z.lt (fId <$> out).
Proof.
  intros HM. rewrite Digitize_spec, HM. simpl. eexists. split; [reflexivity|].
  destruct (merged_digits geom this run sdigArray st HM) as (ds & -> & Hid).
  rewrite omap_Some. split; [|split; [|split]].
  - apply indexedFrom_length.
  - apply indexedFrom_id.
  - rewrite indexedFrom_index, indexedFrom_length. reflexivity.
  - rewrite indexedFrom_id. apply filter_ascending.
    rewrite Hid. apply seqZ_ascending.
Qed.

Lemma index_density_witness :
  exists st out,
    Merge geom_4_2 standalone alternating scenario = Ok st
    /\ length (omap id (digits st)) = 6%nat
    /\ Digitize geom_4_2 standalone alternating scenario = Ok out
    /\ fId <$> out = [2; 4; 6]
    /\ fIndexInList <$> out = [0; 1; 2]
    /\ StronglySorted Z.lt (fId <$> out).
Proof.
  destruct (Merge geom_4_2 standalone alternating scenario) as [st|f] eqn:HM;
    [|vm_compute in HM; discriminate].
  destruct (index_density geom_4_2 standalone alternating scenario st HM)
    as (out & HD & _ & _ & _ & Hs).
  exists st, out.
  pose proof HM as HM'. pose proof HD as HD'. vm_compute in HM', HD'.
  injection HM' as <-. injection HD' as <-.
  split; [reflexivity|]. split; [reflexivity|]. split; [reflexivity|].
  split; [reflexivity|]. split; [reflexivity | exact Hs].
Defined.

(** ** The order of the summable digits of an input *)

Lemma two_cells_run (m : Z) (s : list AliPHOSDigit) :
  match s with
  | r1 :: r2 :: _ => fId r2 <> fId r1
  | _ => False
  end ->
  (length (headRun m s) <= 1 /\ length (headRun m s) < length s)%nat.
Proof.
  destruct s as [|r1 [|r2 rest]]; try contradiction. intros Hne. simpl.
  destruct (fId r1 =? m) eqn:E1; simpl; [|lia].
  destruct (fId r2 =? m) eqn:E2; simpl; [|lia].
  apply Z.eqb_eq in E1, E2. congruence.
Qed.

Lemma headRun_other (m : Z) (s : list AliPHOSDigit) :
  fId <$> head s <> Some m -> headRun m s = [].
Proof.
  destruct s as [|d s]; [reflexivity|]. simpl. intros H.
  destruct (fId d =? m) eqn:E; [|reflexivity].
  apply Z.eqb_eq in E. subst m. contradiction.
Qed.

Lemma runLengths_other (m : Z) (sdigArray : list (list AliPHOSDigit)) :
  Some m ∉ (fun s => fId <$> head s) <$> sdigArray ->
  sum_list (runLengths m sdigArray) = 0%nat.
Proof.
  induction sdigArray as [|s more IH]; intros H; [reflexivity|].
  rewrite fmap_cons in H. apply not_elem_of_cons in H as [H1 H2].
  specialize (IH H2).
  pose proof (headRun_other m s ltac:(congruence)) as H0.
  unfold runLengths, fmap in *. simpl in *. rewrite H0. simpl. exact IH.
Qed.

(** Inputs that begin on different cells, each with two summable digits on
    different cells, begin with one summable digit of any cell at most. *)
Lemma distinct_heads_run (m : Z) (sdigArray : list (list AliPHOSDigit)) :
  Forall (fun s => (length (headRun m s) <= 1)%nat) sdigArray ->
  NoDup ((fun s => fId <$> head s) <$> sdigArray) ->
  (sum_list (runLengths m sdigArray) <= 1)%nat.
Proof.
  induction 1 as [|s more Hs _ IH]; intros Hdup; [simpl; lia|].
  rewrite fmap_cons in Hdup. apply NoDup_cons in Hdup as [Hnot Hdup].
  specialize (IH Hdup).
  destruct (decide (fId <$> head s = Some m)) as [E|E].
  - rewrite E in Hnot.
    pose proof (runLengths_other m more Hnot) as H0.
    unfold runLengths, fmap in *. simpl in *. lia.
  - pose proof (headRun_other m s E) as H1.
    unfold runLengths, fmap in *. simpl in *. rewrite H1. simpl. lia.
Qed.

(** C7, as the code has it.  [Digitize] does not look at the order of the
    summable digits of an input and raises no error on it: when the white
    board holds two inputs at most, every input begins with two summable
    digits on different cells and no two inputs begin on the same cell, the
    digitization completes, whatever the order of the cells in the inputs,
    and returns, indexed from 0, the digits of the cells that survive their
    thresholds, [m] being the cell on which the scan for the first cell
    with signal ends. *)
Theorem no_ordering_check (geom : AliPHOSGeometry) (this : AliPHOSDigitizer)
    (run : Collaborators) (name : string) (folders : list TFolder)
    (sdigArray : list (list AliPHOSDigit)) :
  sdigArray = omap (fun f => FindObject (folderObjects f) name) folders ->
  (length sdigArray <= 2)%nat ->
  Forall (fun s => match s with
                   | r1 :: r2 :: _ => fId r2 <> fId r1
                   | _ => False
                   end) sdigArray ->
  NoDup ((fun s => fId <$> head s) <$> sdigArray) ->
  exists m,
    firstSignal sdigArray 200000 = Ok m
    /\ DigitizeFolders geom this run name folders
       = Ok (indexedFrom 0
               (List.filter (survives geom this run)
                  (cellDigit geom this run sdigArray m
                     <$> seqZ 1 (Z.of_nat (nCPV geom))))).
Proof.
  intros Hfound Hlen Htwo Hdup.
  assert (Hrun : forall m,
             Forall (fun s => (length (headRun m s) <= 1
                               /\ length (headRun m s) < length s)%nat) sdigArray).
  { intros m. eapply Forall_impl; [exact Htwo|]. intros s. apply two_cells_run. }
  destruct (firstSignal_total sdigArray 200000) as [m Hm].
  { eapply Forall_impl; [exact Htwo|]. intros [|r s] H; [contradiction|discriminate]. }
  exists m. split; [exact Hm|].
  rewrite DigitizeFolders_cases. cbv zeta. rewrite <- Hfound.
  rewrite decide_True by exact Hlen.
  rewrite Digitize_spec, Merge_spec, Hm. simpl.
  destruct (decide (1 <= m <= Z.of_nat (nCPV geom))) as [Hin|Hout].
  - rewrite decide_True.
    + destruct (findNextSig_total sdigArray (runLengths m sdigArray) m) as [next ->].
      * unfold runLengths. apply Forall2_fmap_r, Forall_Forall2_diag.
        eapply Forall_impl; [exact (Hrun m)|]. simpl. tauto.
      * simpl. unfold arrOf. simpl. rewrite app_nil_r, omap_Some. reflexivity.
    + intros _. rewrite foldedFrom_length.
      apply distinct_heads_run; [|exact Hdup].
      eapply Forall_impl; [exact (Hrun m)|]. simpl. tauto.
  - simpl. unfold arrOf. simpl. rewrite app_nil_r, omap_Some. reflexivity.
Qed.

Lemma no_ordering_check_witness :
  fId <$> concat two_unordered_inputs = [5; 3; 7; 6; 2; 9]
  /\ DigitizeFolders geom_8_2 standalone quiet "Default"
                     (whiteBoard two_unordered_inputs)
     = Ok [ {| fId := 5; fAmp := 1; fTime := 0; fPrimary := [(0, 1%Q)];
               fIndexInList := 0 |} ].
Proof.
  split; [reflexivity|].
  destruct (no_ordering_check geom_8_2 standalone quiet "Default"
              (whiteBoard two_unordered_inputs) two_unordered_inputs)
    as (m & Hm & HD).
  - reflexivity.
  - simpl. lia.
  - repeat constructor; simpl; discriminate.
  - apply (bool_decide_unpack _). vm_compute. reflexivity.
  - rewrite HD. vm_compute in Hm. injection Hm as <-. vm_compute. reflexivity.
Defined.

(** C7, as stated, fails: an input with summable digits on the cells 5, 3
    and 7, in this order, is digitized without any error; the digit of the
    cell 5 is in the final list. *)
Lemma unordered_input_accepted :
  fId <$> concat unordered_input = [5; 3; 7]
  /\ DigitizeFolders geom_8_2 standalone quiet "Default"
                     (whiteBoard unordered_input)
     = Ok [ {| fId := 5; fAmp := 1; fTime := 0; fPrimary := [(0, 1%Q)];
               fIndexInList := 0 |} ].
Proof. split; vm_compute; reflexivity. Qed.

(** * Further properties of the digitizer *)

(** ** When the digitization completes *)


Lemma firstSignal_fault (sdigArray : list (list AliPHOSDigit)) :
  forall (n : Z) (f : Fault),
    firstSignal sdigArray n = Crash f ->
    f = NullDereference /\ [] ∈ sdigArray.
Proof.
  induction sdigArray as [|s more IH]; intros n f H; simpl in H; [discriminate|].
  destruct s as [|d s]; simpl in H.
  - injection H as <-. split; [reflexivity | constructor].
  - apply IH in H as [-> Hin]. split; [reflexivity|].
    apply elem_of_cons. auto.
Qed.

Lemma findNextSig_fault (sdigArray : list (list AliPHOSDigit)) :
  forall (index : list nat) (n : Z) (f : Fault),
    findNextSig sdigArray index n = Crash f -> f = NullDereference.
Proof.
  induction sdigArray as [|s more IH]; intros index n f H; simpl in H;
    [discriminate|].
  destruct index as [|ix ixs]; [discriminate|].
  destruct (SDigits_At s ix) as [d|]; simpl in H.
  - eapply IH, H.
  - injection H as <-. reflexivity.
Qed.

Lemma findNextSig_Ok_inv (sdigArray : list (list AliPHOSDigit)) :
  forall (index : list nat) (n n' : Z),
    length index = length sdigArray ->
    findNextSig sdigArray index n = Ok n' ->
    Forall2 (fun s ix => (ix < length s)%nat) sdigArray index.
Proof.
  induction sdigArray as [|s more IH]; intros index n n' Hlen H.
  - destruct index; [constructor | discriminate].
  - destruct index as [|ix ixs]; [discriminate|]. simpl in H, Hlen.
    unfold SDigits_At in H. destruct (s !! ix) as [d|] eqn:E; simpl in H;
      [|discriminate].
    constructor; [eapply lookup_lt_Some, E|].
    eapply IH; [lia | exact H].
Qed.

Lemma runLengths_fit (m : Z) (sdigArray : list (list AliPHOSDigit)) :
  Forall2 (fun s ix => (ix < length s)%nat) sdigArray (runLengths m sdigArray)
  <-> Forall (fun s => (length (headRun m s) < length s)%nat) sdigArray.
Proof.
  unfold runLengths. rewrite Forall2_fmap_r. split.
  - intros H. induction sdigArray as [|s more IH]; [constructor|].
    apply Forall2_cons in H as [Hs H]. constructor; [exact Hs | apply IH, H].
  - intros H. apply Forall_Forall2_diag. exact H.
Qed.


(** Once the inputs are in their array, the digitization completes exactly
    when no input is empty and, the first cell with signal [m] being a cell
    of the detector, every input has a summable digit left behind its
    summable digits of the cell [m], and, [m] being an EMC cell, the inputs
    begin with one summable digit of the cell [m] at most. *)
Lemma Digitize_Ok_iff (geom : AliPHOSGeometry) (this : AliPHOSDigitizer)
    (run : Collaborators) (sdigArray : list (list AliPHOSDigit)) :
  (exists out, Digitize geom this run sdigArray = Ok out)
  <-> exists m,
        firstSignal sdigArray 200000 = Ok m
        /\ (1 <= m <= Z.of_nat (nCPV geom) ->
            (m <= Z.of_nat (nEMC geom) ->
             (sum_list (runLengths m sdigArray) <= 1)%nat)
            /\ Forall (fun s => (length (headRun m s) < length s)%nat) sdigArray).
Proof.
  rewrite Digitize_spec, Merge_spec.
  destruct (firstSignal sdigArray 200000) as [m|f]; simpl.
  2:{ split; [intros [out H]; discriminate | intros (m & H & _); discriminate]. }
  rewrite (foldedFrom_length this).
  split.
  - intros [out H]. exists m. split; [reflexivity|]. intros Hin.
    rewrite decide_True in H by exact Hin.
    destruct (decide (m <= Z.of_nat (nEMC geom) -> _)) as [HD|HD];
      [|discriminate].
    split; [exact HD|].
    destruct (findNextSig sdigArray (runLengths m sdigArray) m) as [next|f] eqn:E;
      [|discriminate].
    apply runLengths_fit. eapply findNextSig_Ok_inv; [|exact E].
    unfold runLengths. rewrite length_fmap. reflexivity.
  - intros (m' & Hm & H). injection Hm as <-.
    destruct (decide (1 <= m <= Z.of_nat (nCPV geom))) as [Hin|Hout];
      [|simpl; eauto].
    destruct (H Hin) as [HD Hfit].
    rewrite decide_True by exact HD.
    apply runLengths_fit in Hfit.
    destruct (findNextSig_total sdigArray _ m Hfit) as [next ->]. simpl. eauto.
Qed.

(** X2. The digitization of the inputs posted on the white board completes
    exactly when there are two inputs at most, none of them empty, and, the
    first cell with signal [m] being a cell of the detector, every input has
    a summable digit left behind its summable digits of the cell [m], and,
    [m] being an EMC cell, the inputs begin with one summable digit of the
    cell [m] at most, all inputs taken together. *)
Theorem Digitize_completes_iff (geom : AliPHOSGeometry) (this : AliPHOSDigitizer)
    (run : Collaborators) (name : string) (folders : list TFolder) :
  let sdigArray := omap (fun f => FindObject (folderObjects f) name) folders in
  (exists out, DigitizeFolders geom this run name folders = Ok out)
  <-> (length sdigArray <= 2)%nat
      /\ exists m,
           firstSignal sdigArray 200000 = Ok m
           /\ (1 <= m <= Z.of_nat (nCPV geom) ->
               (m <= Z.of_nat (nEMC geom) ->
                (sum_list (runLengths m sdigArray) <= 1)%nat)
               /\ Forall (fun s => (length (headRun m s) < length s)%nat)
                         sdigArray).
Proof.
  intros sdigArray. rewrite DigitizeFolders_cases. cbv zeta. fold sdigArray.
  destruct (decide (length sdigArray <= 2)%nat) as [Hle|Hgt].
  - rewrite Digitize_Ok_iff. tauto.
  - split; [intros [out H]; discriminate | intros [H _]; contradiction].
Qed.

(** Once the inputs are in their array, the digitization faults on the
    scratch arrays exactly when the first cell with signal is an EMC cell
    of the detector and the inputs begin with two or more summable digits
    of this cell. *)
Lemma Digitize_overflow_iff (geom : AliPHOSGeometry) (this : AliPHOSDigitizer)
    (run : Collaborators) (sdigArray : list (list AliPHOSDigit)) :
  Digitize geom this run sdigArray = Crash ScratchOverflow
  <-> exists m,
        firstSignal sdigArray 200000 = Ok m
        /\ 1 <= m <= Z.of_nat (nEMC geom)
        /\ (2 <= sum_list (runLengths m sdigArray))%nat.
Proof.
  pose proof (nEMC_le_nCPV geom) as Hle.
  rewrite Digitize_spec, Merge_spec.
  destruct (firstSignal sdigArray 200000) as [m|f] eqn:Hm; simpl.
  2:{ split; [intros H | intros (m & H & _); discriminate].
      apply firstSignal_fault in Hm as [-> _]. discriminate. }
  rewrite (foldedFrom_length this).
  split.
  - intros H. exists m. split; [reflexivity|].
    destruct (decide (1 <= m <= Z.of_nat (nCPV geom))) as [Hin|Hout];
      [|discriminate].
    destruct (decide (m <= Z.of_nat (nEMC geom) -> _)) as [HD|HD].
    + destruct (findNextSig sdigArray (runLengths m sdigArray) m) as [next|f] eqn:E;
        [discriminate|].
      apply findNextSig_fault in E as ->. discriminate.
    + destruct (decide (m <= Z.of_nat (nEMC geom))) as [He|He];
        [|exfalso; apply HD; intros; lia].
      split; [lia|].
      apply Nat.nle_gt. intros Hs. apply HD. intros _. lia.
  - intros (m' & E & Hin & Hov). injection E as <-.
    rewrite decide_True by lia. rewrite decide_False; [reflexivity|].
    intros HD. pose proof (HD ltac:(lia)). lia.
Qed.

(** X3. The digitization of the inputs posted on the white board faults on
    the scratch arrays exactly when there are two inputs at most, the first
    cell with signal is an EMC cell of the detector and the inputs begin
    with two or more summable digits of this cell, all inputs taken
    together; the size given to the scratch arrays plays no part. *)
Theorem Digitize_overflows_iff (geom : AliPHOSGeometry) (this : AliPHOSDigitizer)
    (run : Collaborators) (name : string) (folders : list TFolder) :
  let sdigArray := omap (fun f => FindObject (folderObjects f) name) folders in
  DigitizeFolders geom this run name folders = Crash ScratchOverflow
  <-> (length sdigArray <= 2)%nat
      /\ exists m,
           firstSignal sdigArray 200000 = Ok m
           /\ 1 <= m <= Z.of_nat (nEMC geom)
           /\ (2 <= sum_list (runLengths m sdigArray))%nat.
Proof.
  intros sdigArray. rewrite DigitizeFolders_cases. cbv zeta. fold sdigArray.
  destruct (decide (length sdigArray <= 2)%nat) as [Hle|Hgt].
  - rewrite Digitize_overflow_iff. tauto.
  - split; [discriminate | intros [H _]; contradiction].
Qed.

(** ** What the first cell with signal receives *)

Lemma foldl_digit_plus_primary (D : list AliPHOSDigit) :
  forall d : AliPHOSDigit,
    fPrimary (foldl digit_plus d D) = fPrimary d ++ concat (fPrimary <$> D).
Proof.
  induction D as [|s D IH]; intros d; simpl; [rewrite app_nil_r; reflexivity|].
  rewrite IH. simpl. rewrite <- app_assoc. reflexivity.
Qed.

Lemma foldl_digit_plus_amp (D : list AliPHOSDigit) :
  forall d : AliPHOSDigit,
    fAmp (foldl digit_plus d D) = foldl Qplus (fAmp d) (fAmp <$> D).
Proof. induction D as [|s D IH]; intros d; simpl; [|rewrite IH]; reflexivity. Qed.

Lemma foldedFrom_amp (this : AliPHOSDigitizer) (m : Z)
    (sdigArray : list (list AliPHOSDigit)) :
  forall i : nat,
    fAmp <$> foldedFrom this m i sdigArray
    = fAmp <$> concat (headRun m <$> sdigArray).
Proof.
  induction sdigArray as [|s more IH]; intros i; [reflexivity|].
  cbn [foldedFrom]. rewrite fmap_cons. cbn [concat].
  rewrite !fmap_app, IH. f_equal.
  rewrite <- list_fmap_compose. reflexivity.
Qed.

Lemma foldedFrom_primary (this : AliPHOSDigitizer) (m : Z)
    (sdigArray : list (list AliPHOSDigit)) :
  forall i0 : nat,
    fst <$> concat (fPrimary <$> foldedFrom this m i0 sdigArray)
    = concat (imap (fun i s => remapped this (i0 + i) (headRun m s)) sdigArray).
Proof.
  induction sdigArray as [|s more IH]; intros i0; [reflexivity|].
  cbn [foldedFrom]. rewrite imap_cons. cbn [concat].
  rewrite fmap_app, concat_app, fmap_app, IH. f_equal.
  - rewrite Nat.add_0_r. unfold remapped. rewrite flat_map_concat_map.
    generalize (headRun m s). intros l.
    induction l as [|r l IHl]; [reflexivity|].
    cbn [fmap list_fmap concat map] in *. rewrite fmap_app, IHl. reflexivity.
  - f_equal. apply imap_ext. intros i x _. simpl. f_equal. lia.
Qed.

(** X4. After a merge that completes, the digit of the first cell with
    signal [m], a cell of the detector, has for amplitude the noise of the
    cell plus, added one after the other, the amplitudes of the summable
    digits of the cell [m] with which the inputs begin, and for primaries
    the primaries of these summable digits, input after input, each shifted
    by the offset of its input. *)
Theorem first_cell_conservation (geom : AliPHOSGeometry)
    (this : AliPHOSDigitizer) (run : Collaborators)
    (sdigArray : list (list AliPHOSDigit)) (st : MergeState) (m : Z) :
  Merge geom this run sdigArray = Ok st ->
  firstSignal sdigArray 200000 = Ok m ->
  1 <= m <= Z.of_nat (nCPV geom) ->
  exists d,
    At (digits st) (slotOf m) = Some d
    /\ fId d = m
    /\ fAmp d
       = foldl Qplus
           (SDigitize run (Gaus run (if m <=? Z.of_nat (nEMC geom)
                                     then fPinNoise this else fCPVNoise this) m))
           (fAmp <$> concat (headRun m <$> sdigArray))
    /\ fst <$> fPrimary d
       = concat (imap (fun i s => remapped this i (headRun m s)) sdigArray).
Proof.
  intros HM Hm Hin.
  exists (cellDigit geom this run sdigArray m m).
  split; [apply merged_cell; assumption|].
  split; [apply cellDigit_id|].
  unfold cellDigit. rewrite Z.eqb_refl.
  destruct (m <=? Z.of_nat (nEMC geom)); simpl;
    rewrite foldl_digit_plus_amp, foldl_digit_plus_primary, foldedFrom_amp;
    simpl; rewrite (foldedFrom_primary this m sdigArray 0); split; reflexivity.
Qed.

Lemma first_cell_conservation_witness :
  exists st d,
    Merge geom_4_2 standalone quiet two_cpv_inputs = Ok st
    /\ At (digits st) (slotOf 5) = Some d
    /\ fAmp d = foldl Qplus 0%Q [1%Q; 1 # 2]
    /\ fst <$> fPrimary d = [0; 10000001].
Proof.
  destruct (Merge geom_4_2 standalone quiet two_cpv_inputs) as [st|f] eqn:HM;
    [|vm_compute in HM; discriminate].
  destruct (first_cell_conservation geom_4_2 standalone quiet two_cpv_inputs st 5 HM)
    as (d & Hd & _ & Ha & Hp).
  - vm_compute. reflexivity.
  - vm_compute. split; discriminate.
  - exists st, d. split; [reflexivity|]. split; [exact Hd|].
    split; [exact Ha | exact Hp].
Defined.

Lemma only_first_cell_receives_signal_witness :
  exists st,
    Merge geom_4_2 standalone quiet scenario = Ok st
    /\ At (digits st) (slotOf 6) = Some (NoiseDigit 6 0 TimeOfNoise).
Proof.
  destruct (Merge geom_4_2 standalone quiet scenario) as [st|f] eqn:HM;
    [|vm_compute in HM; discriminate].
  exists st. split; [reflexivity|].
  apply (only_first_cell_receives_signal geom_4_2 standalone quiet scenario st 2 6 HM).
  - vm_compute. reflexivity.
  - vm_compute. split; discriminate.
  - discriminate.
Defined.

(** ** Raising the thresholds *)

Lemma filter_sublist {A B : Type} (g : A -> B) (f f' : A -> bool) (l : list A) :
  (forall x, f' x = true -> f x = true) ->
  (g <$> List.filter f' l) `sublist_of` (g <$> List.filter f l).
Proof.
  intros Himp. induction l as [|x l IH]; simpl; [constructor|].
  destruct (f' x) eqn:E'.
  - rewrite (Himp x E'). rewrite !fmap_cons. apply sublist_skip, IH.
  - destruct (f x); [rewrite fmap_cons; apply sublist_cons, IH | exact IH].
Qed.

Lemma indexedFrom_forget (ds : list AliPHOSDigit) :
  forall i : nat,
    SetIndexInList 0 <$> indexedFrom i ds = SetIndexInList 0 <$> ds.
Proof.
  induction ds as [|d ds IH]; intros i; [reflexivity|].
  cbn [indexedFrom]. rewrite !fmap_cons, IH. reflexivity.
Qed.

Lemma Merge_thresholds (geom : AliPHOSGeometry) (this this' : AliPHOSDigitizer)
    (run : Collaborators) (sdigArray : list (list AliPHOSDigit)) :
  fPinNoise this' = fPinNoise this -> fCPVNoise this' = fCPVNoise this ->
  fARD this' = fARD this ->
  Merge geom this' run sdigArray = Merge geom this run sdigArray.
Proof.
  destruct this, this'. simpl. intros -> -> ->. reflexivity.
Qed.

(** X5. Raising the thresholds, all else equal, never adds a digit: when the
    digitization completes, it completes with the higher thresholds too, and
    its digits are then, their indexes apart, among the digits obtained with
    the lower thresholds, in the same order. *)
Theorem raising_thresholds (geom : AliPHOSGeometry) (this this' : AliPHOSDigitizer)
    (run : Collaborators) (sdigArray : list (list AliPHOSDigit))
    (out : list AliPHOSDigit) :
  fPinNoise this' = fPinNoise this -> fCPVNoise this' = fCPVNoise this ->
  fARD this' = fARD this ->
  (fEMCDigitThreshold this <= fEMCDigitThreshold this')%Q ->
  (fCPVDigitThreshold this <= fCPVDigitThreshold this')%Q ->
  Digitize geom this run sdigArray = Ok out ->
  exists out',
    Digitize geom this' run sdigArray = Ok out'
    /\ (SetIndexInList 0 <$> out') `sublist_of` (SetIndexInList 0 <$> out)
    /\ (length out' <= length out)%nat.
Proof.
  intros Hp Hc Ha He Hv H.
  rewrite Digitize_spec in H. rewrite Digitize_spec.
  rewrite (Merge_thresholds geom this this' run sdigArray Hp Hc Ha).
  apply bind_Ok in H as (st & -> & H). injection H as <-. simpl.
  eexists. split; [reflexivity|].
  assert (Hsub : (SetIndexInList 0 <$> List.filter (survives geom this' run)
                                                   (omap id (digits st)))
                 `sublist_of`
                 (SetIndexInList 0 <$> List.filter (survives geom this run)
                                                   (omap id (digits st)))).
  { apply filter_sublist. intros d. unfold survives, classThreshold.
    rewrite !negb_true_iff, !Qlt_bool_false.
    destruct (fId d <=? Z.of_nat (nEMC geom)); intros Hd;
      eapply Qle_trans; eauto. }
  rewrite !indexedFrom_forget. split; [exact Hsub|].
  apply sublist_length in Hsub. rewrite !length_fmap in Hsub.
  rewrite !indexedFrom_length. exact Hsub.
Qed.

Lemma raising_thresholds_witness :
  exists out out',
    Digitize geom_4_2 standalone noisy scenario = Ok out
    /\ Digitize geom_4_2
         {| fPinNoise := Float_0_01; fEMCDigitThreshold := 3 # 2;
            fCPVNoise := Float_0_01; fCPVDigitThreshold := Float_0_09;
            fARD := None |} noisy scenario = Ok out'
    /\ (length out = 6 /\ length out' = 3)%nat
    /\ (SetIndexInList 0 <$> out') `sublist_of` (SetIndexInList 0 <$> out).
Proof.
  destruct (Digitize geom_4_2 standalone noisy scenario) as [out|f] eqn:H;
    [|vm_compute in H; discriminate].
  destruct (raising_thresholds geom_4_2 standalone
              {| fPinNoise := Float_0_01; fEMCDigitThreshold := 3 # 2;
                 fCPVNoise := Float_0_01; fCPVDigitThreshold := Float_0_09;
                 fARD := None |} noisy scenario out)
    as (out' & H' & Hsub & _);
    [reflexivity | reflexivity | reflexivity
     | vm_compute; discriminate | vm_compute; discriminate | exact H |].
  exists out, out'. split; [reflexivity|]. split; [exact H'|].
  split; [|exact Hsub].
  vm_compute in H, H'. injection H as <-. injection H' as <-.
  split; reflexivity.
Defined.

(** ** FrontEdgeTime on any array *)

Lemma Float_true_false (z : Q) : (z == 0)%Q -> Float_true z = false.
Proof.
  intros H. unfold Float_true. apply Qeq_bool_iff in H. rewrite H. reflexivity.
Qed.

Lemma FrontEdgeScan_stop (time z : Q) (rest : list Q) :
  (z == 0)%Q -> FrontEdgeScan time z rest = time.
Proof.
  intros H. apply Float_true_false in H.
  destruct rest; simpl; rewrite H; reflexivity.
Qed.

Lemma FrontEdgeScan_prefix (ts : list Q) :
  forall (time cur : Q) (tail : list Q),
    Forall nonzero (cur :: ts) ->
    match tail with
    | [] => True
    | z :: _ => (z == 0)%Q
    end ->
    least (FrontEdgeScan time cur (ts ++ tail)) (time :: cur :: ts).
Proof.
  induction ts as [|t ts IH]; intros time cur tail Hnz Htail.
  - apply Forall_cons in Hnz as [Hcur _]. apply Float_true_iff in Hcur.
    assert (E : FrontEdgeScan time cur ([] ++ tail)
                = if Qlt_bool cur time then cur else time).
    { destruct tail as [|z rest]; simpl; rewrite Hcur; [reflexivity|].
      apply FrontEdgeScan_stop, Htail. }
    rewrite E. destruct (Qlt_bool cur time) eqn:C.
    + apply Qlt_bool_iff in C. split; [mem|].
      repeat constructor; [apply Qlt_le_weak, C | apply Qle_refl].
    + apply Qlt_bool_false in C. split; [mem|].
      repeat constructor; [apply Qle_refl | exact C].
  - apply Forall_cons in Hnz as [Hcur Hnz].
    pose proof Hcur as Hc. apply Float_true_iff in Hc.
    simpl. rewrite Hc.
    set (time' := if Qlt_bool cur time then cur else time).
    destruct (IH time' t tail Hnz Htail) as [Hin Hle].
    assert (Ht : time' ∈ [time; cur] /\ (time' <= time)%Q /\ (time' <= cur)%Q).
    { subst time'. destruct (Qlt_bool cur time) eqn:C.
      - apply Qlt_bool_iff in C. repeat split;
          [mem | apply Qlt_le_weak, C | apply Qle_refl].
      - apply Qlt_bool_false in C. repeat split;
          [mem | apply Qle_refl | exact C]. }
    destruct Ht as (Hmem & Hlt & Hlc).
    apply Forall_cons in Hle as [Hr Hle]. split.
    + rewrite !elem_of_cons in Hin. rewrite !elem_of_cons.
      destruct Hin as [-> | [-> | Hin]]; [|tauto|tauto].
      rewrite !elem_of_cons, elem_of_nil in Hmem. tauto.
    + constructor; [eapply Qle_trans; eauto|].
      constructor; [eapply Qle_trans; eauto|]. exact Hle.
Qed.

(** X6. [FrontEdgeTime] reads the times up to the first zero, or up to the
    end of the array without one: when the array begins with the non-zero
    times [t :: ts], followed by nothing or by a zero and anything, the
    result is the least of [t :: ts]; what lies behind the zero is
    ignored, and so are the energies. *)
Theorem FrontEdgeTime_prefix (en : list Q) (t : Q) (ts tail : list Q) :
  Forall nonzero (t :: ts) ->
  match tail with
  | [] => True
  | z :: _ => (z == 0)%Q
  end ->
  least (FrontEdgeTime en (t :: ts ++ tail)) (t :: ts).
Proof.
  intros Hnz Htail. unfold FrontEdgeTime.
  change (TArrayF_At (t :: ts ++ tail) 0) with t.
  change (drop 1 (t :: ts ++ tail)) with (ts ++ tail).
  cbv zeta.
  pose proof (FrontEdgeScan_prefix ts t t tail Hnz Htail) as [Hin Hle].
  revert Hin Hle. generalize (FrontEdgeScan t t (ts ++ tail)).
  intros r Hin Hle. split.
  - apply elem_of_cons in Hin as [-> | Hin]; [mem | exact Hin].
  - apply Forall_cons in Hle as [_ Hle]. exact Hle.
Qed.

Lemma FrontEdgeTime_prefix_witness :
  least (FrontEdgeTime [] [7 # 1; 3 # 1; 0; -(5 # 1); 2 # 1]%Q) [7 # 1; 3 # 1]%Q.
Proof.
  apply (FrontEdgeTime_prefix [] (7 # 1) [3 # 1]%Q [0; -(5 # 1); 2 # 1]%Q).
  - repeat constructor; vm_compute; discriminate.
  - reflexivity.
Defined.

(** ** What the digitization does not read *)

Lemma headRun_take (m : Z) (s : list AliPHOSDigit) :
  forall k : nat,
    (length (headRun m s) < k)%nat -> headRun m (take k s) = headRun m s.
Proof.
  induction s as [|d s IH]; intros k Hk; [destruct k; reflexivity|].
  destruct k as [|k]; [lia|]. simpl in *.
  destruct (fId d =? m); [|reflexivity].
  simpl in Hk. f_equal. apply IH. lia.
Qed.

Lemma firstSignal_heads (f : list AliPHOSDigit -> list AliPHOSDigit)
    (sdigArray : list (list AliPHOSDigit)) :
  (forall s, head (f s) = head s) ->
  forall n : Z, firstSignal (f <$> sdigArray) n = firstSignal sdigArray n.
Proof.
  intros Hf. induction sdigArray as [|s more IH]; intros n; [reflexivity|].
  rewrite fmap_cons. cbn [firstSignal]. unfold SDigits_At.
  rewrite <- !head_lookup, Hf.
  destruct (head s) as [d|]; simpl; [apply IH | reflexivity].
Qed.

Lemma findNextSig_fmap (f : list AliPHOSDigit -> list AliPHOSDigit) (m : Z)
    (sdigArray : list (list AliPHOSDigit)) :
  (forall s, f s !! length (headRun m s) = s !! length (headRun m s)) ->
  forall n : Z,
    findNextSig (f <$> sdigArray) (runLengths m sdigArray) n
    = findNextSig sdigArray (runLengths m sdigArray) n.
Proof.
  intros Hf. induction sdigArray as [|s more IH]; intros n; [reflexivity|].
  unfold runLengths in *. rewrite !fmap_cons. cbn [findNextSig].
  unfold SDigits_At. rewrite Hf.
  destruct (s !! length (headRun m s)) as [d|]; simpl; [apply IH | reflexivity].
Qed.

Lemma foldedFrom_fmap (this : AliPHOSDigitizer)
    (f : list AliPHOSDigit -> list AliPHOSDigit) (m : Z)
    (sdigArray : list (list AliPHOSDigit)) :
  (forall s, headRun m (f s) = headRun m s) ->
  forall i : nat,
    foldedFrom this m i (f <$> sdigArray) = foldedFrom this m i sdigArray.
Proof.
  intros Hf. induction sdigArray as [|s more IH]; intros i; [reflexivity|].
  rewrite fmap_cons. cbn [foldedFrom]. rewrite Hf, IH. reflexivity.
Qed.

(** X7. Behind its summable digits of the first cell with signal [m], the
    digitization reads one summable digit of every input and no more:
    cutting every input behind that one leaves the result, digits or
    fault, as it is. *)
Theorem Digitize_reads_head_runs (geom : AliPHOSGeometry)
    (this : AliPHOSDigitizer) (run : Collaborators)
    (sdigArray : list (list AliPHOSDigit)) (m : Z) :
  firstSignal sdigArray 200000 = Ok m ->
  Digitize geom this run
           ((fun s => take (S (length (headRun m s))) s) <$> sdigArray)
  = Digitize geom this run sdigArray.
Proof.
  intros Hm. set (f := fun s : list AliPHOSDigit => take (S (length (headRun m s))) s).
  assert (Hhead : forall s, head (f s) = head s).
  { intros s. subst f. destruct s; reflexivity. }
  assert (Hrun : forall s, headRun m (f s) = headRun m s).
  { intros s. subst f. apply headRun_take. lia. }
  assert (Hnext : forall s, f s !! length (headRun m s) = s !! length (headRun m s)).
  { intros s. subst f. simpl. apply lookup_take_lt. lia. }
  assert (Hlens : runLengths m (f <$> sdigArray) = runLengths m sdigArray).
  { unfold runLengths. rewrite <- list_fmap_compose.
    apply list_fmap_ext. intros i s _. simpl. rewrite Hrun. reflexivity. }
  rewrite !Digitize_spec. f_equal.
  rewrite !Merge_spec.
  rewrite (firstSignal_heads f sdigArray Hhead), Hm. simpl.
  unfold mergedScratch, input. rewrite length_fmap.
  rewrite (foldedFrom_fmap this f m sdigArray Hrun), Hlens.
  rewrite (findNextSig_fmap f m sdigArray Hnext).
  assert (Hcells : cellDigit geom this run (f <$> sdigArray) m
                     <$> seqZ 1 (Z.of_nat (nCPV geom))
                   = cellDigit geom this run sdigArray m
                       <$> seqZ 1 (Z.of_nat (nCPV geom))).
  { apply list_fmap_ext. intros i c _. unfold cellDigit.
    destruct (c =? m) eqn:E; [|reflexivity].
    apply Z.eqb_eq in E. subst c.
    rewrite (foldedFrom_fmap this f m sdigArray Hrun). reflexivity. }
  rewrite Hcells. reflexivity.
Qed.

Lemma Digitize_reads_head_runs_witness :
  Digitize geom_8_2 standalone quiet [[sdigit 5 1 (5 # 1) 0; sdigit 3 1 (5 # 1) 1]]
  = Digitize geom_8_2 standalone quiet unordered_input.
Proof.
  apply (Digitize_reads_head_runs geom_8_2 standalone quiet unordered_input 5).
  vm_compute. reflexivity.
Defined.

(** ** The tables of PrintDigits *)

Lemma printEMC_beyond (maxEmc : Z) (ds : list AliPHOSDigit) :
  Forall (fun c => maxEmc < c) (fId <$> ds) ->
  printEMC maxEmc ds = []
  /\ printCPV maxEmc ds = printRow <$> ds
  /\ List.filter (fun d => (fId d <=? maxEmc) && negb (GetNprimary d =? 0)%nat) ds
     = []
  /\ List.filter (fun d => maxEmc <? fId d) ds = ds.
Proof.
  induction ds as [|d ds IH]; [repeat split|].
  rewrite fmap_cons. intros H. apply Forall_cons in H as [Hd H].
  destruct (IH H) as (_ & E2 & E3 & E4). simpl.
  assert (L1 : (fId d <=? maxEmc) = false) by (apply Z.leb_gt; exact Hd).
  assert (L2 : (maxEmc <? fId d) = true) by (apply Z.ltb_lt; exact Hd).
  rewrite L1, L2. simpl. rewrite E4. repeat split; try exact E3.
  f_equal. exact E2.
Qed.

Lemma ascending_tail (c : Z) (cs : list Z) :
  StronglySorted Z.le (c :: cs) ->
  forall maxEmc : Z, maxEmc < c -> Forall (fun c' => maxEmc < c') (c :: cs).
Proof.
  intros H maxEmc Hc. apply StronglySorted_inv in H as [_ H].
  constructor; [exact Hc|].
  eapply Forall_impl; [exact H|]. simpl. intros c' Hc'. lia.
Qed.

(** X8. On digits in ascending order of their cells, the first table of
    [PrintDigits] shows every digit up to [maxEmc] that has a primary, in
    the order of the list: ending the loop at the first digit beyond
    [maxEmc] loses none. *)
Theorem printEMC_ascending (maxEmc : Z) (ds : list AliPHOSDigit) :
  StronglySorted Z.le (fId <$> ds) ->
  printEMC maxEmc ds
  = printRow <$> List.filter (fun d => (fId d <=? maxEmc)
                                       && negb (GetNprimary d =? 0)%nat) ds.
Proof.
  induction ds as [|d ds IH]; [reflexivity|].
  rewrite fmap_cons. intros H. simpl.
  destruct (fId d <=? maxEmc) eqn:E.
  - apply StronglySorted_inv in H as [H _]. rewrite (IH H). simpl.
    destruct (GetNprimary d =? 0)%nat; reflexivity.
  - apply Z.leb_gt in E.
    pose proof (ascending_tail _ _ H maxEmc E) as Hall.
    apply Forall_cons in Hall as [_ Hall].
    destruct (printEMC_beyond maxEmc ds Hall) as (_ & _ & -> & _). reflexivity.
Qed.

Lemma printEMC_ascending_witness :
  printEMC 4 [sdigit 2 1 (5 # 1) 0; NoiseDigit 3 1 1; sdigit 4 1 (5 # 1) 7;
              sdigit 5 1 (5 # 1) 8]
  = [printRow (sdigit 2 1 (5 # 1) 0); printRow (sdigit 4 1 (5 # 1) 7)].
Proof.
  apply (printEMC_ascending 4 [sdigit 2 1 (5 # 1) 0; NoiseDigit 3 1 1;
                               sdigit 4 1 (5 # 1) 7; sdigit 5 1 (5 # 1) 8]).
  repeat constructor; simpl; lia.
Defined.

Lemma tables_ascending (maxEmc : Z) (ds : list AliPHOSDigit) :
  StronglySorted Z.le (fId <$> ds) ->
  printEMC maxEmc ds ++ printCPV maxEmc ds
  = printRow <$> List.filter (fun d => (fId d <=? maxEmc)
                                       && negb (GetNprimary d =? 0)%nat
                                       || (maxEmc <? fId d)) ds.
Proof.
  induction ds as [|d ds IH]; [reflexivity|].
  rewrite fmap_cons. intros H. simpl.
  destruct (fId d <=? maxEmc) eqn:E.
  - assert (L : (maxEmc <? fId d) = false)
      by (apply Z.ltb_ge; apply Z.leb_le in E; exact E).
    rewrite L. apply StronglySorted_inv in H as [H _].
    rewrite orb_false_r. simpl. specialize (IH H).
    destruct (GetNprimary d =? 0)%nat; simpl; [exact IH | f_equal; exact IH].
  - apply Z.leb_gt in E.
    assert (L : (maxEmc <? fId d) = true) by (apply Z.ltb_lt; exact E).
    rewrite L. simpl.
    pose proof (ascending_tail _ _ H maxEmc E) as Hall.
    apply Forall_cons in Hall as [_ Hall].
    destruct (printEMC_beyond maxEmc ds Hall) as (_ & -> & _ & E4).
    f_equal. change (printRow <$> ds = printRow <$> List.filter
      (fun d => (fId d <=? maxEmc) && negb (GetNprimary d =? 0)%nat
                || (maxEmc <? fId d)) ds).
    f_equal.
    rewrite <- E4 at 1. apply List.filter_ext_in. intros x Hx.
    rewrite Forall_forall in Hall.
    assert (Hlt : maxEmc < fId x)
      by (apply Hall, list_elem_of_fmap_2, list_elem_of_In, Hx).
    apply Z.ltb_lt in Hlt. rewrite Hlt, orb_true_r. reflexivity.
Qed.

Lemma ascending_weaken (cs : list Z) :
  StronglySorted Z.lt cs -> StronglySorted Z.le cs.
Proof.
  induction 1 as [|c cs Hs IH Hc]; constructor; [exact IH|].
  eapply Forall_impl; [exact Hc|]. simpl. intros. lia.
Qed.

(** X9. [PrintDigits] after [Digitize], with "all" in the option: the two
    tables together show, in the order of the final list and each once, the
    final digits that have a primary or lie beyond [maxEmc]; an EMC digit
    without primary is in neither table. *)
Theorem PrintDigits_after_Digitize (geom : AliPHOSGeometry)
    (this : AliPHOSDigitizer) (run : Collaborators)
    (sdigArray : list (list AliPHOSDigit)) (out : list AliPHOSDigit)
    (opt : string) (maxEmc : Z) :
  Digitize geom this run sdigArray = Ok out ->
  strstr opt "all" = true ->
  fst (PrintDigits opt maxEmc out) ++ snd (PrintDigits opt maxEmc out)
  = printRow <$> List.filter (fun d => (fId d <=? maxEmc)
                                       && negb (GetNprimary d =? 0)%nat
                                       || (maxEmc <? fId d)) out.
Proof.
  intros H Hall. unfold PrintDigits. rewrite Hall. simpl.
  apply tables_ascending, ascending_weaken.
  rewrite Digitize_spec in H.
  apply bind_Ok in H as (st & HM & H). injection H as <-.
  destruct (merged_digits geom this run sdigArray st HM) as (ds & -> & Hid).
  rewrite omap_Some, indexedFrom_id. apply filter_ascending.
  rewrite Hid. apply seqZ_ascending.
Qed.

Lemma PrintDigits_after_Digitize_witness :
  exists out,
    Digitize geom_4_2 standalone noisy scenario = Ok out
    /\ rowId <$> (fst (PrintDigits "deb all" 4 out)
                  ++ snd (PrintDigits "deb all" 4 out)) = [2; 5; 6].
Proof.
  destruct (Digitize geom_4_2 standalone noisy scenario) as [out|f] eqn:H;
    [|vm_compute in H; discriminate].
  exists out. split; [reflexivity|].
  rewrite (PrintDigits_after_Digitize geom_4_2 standalone noisy scenario out
             "deb all" 4 H); [|reflexivity].
  vm_compute in H. injection H as <-. reflexivity.
Defined.

(** ** The inputs taken from the white board *)

(** X10. [Digitize] takes its inputs from the folders of the white board in
    the order of the folders, a folder giving an input when it holds an
    array named as the digitizer.  Its array of inputs has two slots: with
    more than two inputs the third is not stored and the digitization
    faults on the null pointer read in its place. *)
Theorem DigitizeFolders_spec (geom : AliPHOSGeometry) (this : AliPHOSDigitizer)
    (run : Collaborators) (name : string) (folders : list TFolder) :
  DigitizeFolders geom this run name folders =
    let found := omap (fun f => FindObject (folderObjects f) name) folders in
    if decide (length found <= 2)%nat
    then Digitize geom this run found
    else Crash NullDereference.
Proof. apply DigitizeFolders_cases. Qed.

(** ** Exec *)

Lemma findBranches_spec (name : string) (lob : list TBranch) :
  forall phosfound digitizerfound : bool,
    findBranches name lob phosfound digitizerfound
    = (phosfound
       || existsb (fun b => String.eqb (branchName b) "PHOS"
                            && String.eqb (branchTitle b) name) lob,
       digitizerfound
       || existsb (fun b => String.eqb (branchName b) "AliPHOSDigitizer"
                            && String.eqb (branchTitle b) name) lob).
Proof.
  induction lob as [|b more IH]; intros p d; simpl.
  - rewrite !orb_false_r. reflexivity.
  - destruct p, d; simpl; try reflexivity;
      destruct (String.eqb (branchName b) "PHOS") eqn:E1;
      destruct (String.eqb (branchTitle b) name) eqn:E2; simpl;
      try (apply String.eqb_eq in E1; rewrite E1; simpl);
      rewrite ?IH; simpl; rewrite ?orb_true_r, ?orb_false_r;
      try reflexivity;
      destruct (String.eqb (branchName b) "AliPHOSDigitizer"); simpl;
      rewrite ?IH; simpl; rewrite ?orb_true_r; reflexivity.
Qed.

Lemma branch_found (name wanted : string) (lob : list TBranch) :
  existsb (fun b => String.eqb (branchName b) wanted
                    && String.eqb (branchTitle b) name) lob = true
  <-> exists b, b ∈ lob /\ branchName b = wanted /\ branchTitle b = name.
Proof.
  rewrite existsb_exists. split.
  - intros (b & Hb & E). apply andb_true_iff in E as [E1 E2].
    apply String.eqb_eq in E1, E2. exists b.
    split; [apply list_elem_of_In, Hb | auto].
  - intros (b & Hb & E1 & E2). exists b.
    split; [apply list_elem_of_In, Hb|].
    apply andb_true_iff. split; apply String.eqb_eq; assumption.
Qed.

Section ExecProperties.

Context (geom : AliPHOSGeometry) (this : AliPHOSDigitizer)
        (run : Collaborators) (name : string) (baseFile : option string).

Local Abbreviation Write := (fun t out => WriteDigits this name baseFile out t).

Lemma eventLoop_outcome (events : list (list TFolder)) :
  forall (ievent : nat) (treeD lob' : list TBranch) (outcome : ExecOutcome),
    eventLoop geom this run name baseFile events ievent treeD = (lob', outcome) ->
    (exists n, outcome = Done n) \/ (exists f k, outcome = Faulted f k).
Proof.
  induction events as [|ev more IH]; intros i t lob' o H; simpl in H.
  - injection H as _ <-. eauto.
  - destruct (DigitizeFolders geom this run name ev) as [digits|f].
    + eapply IH, H.
    + injection H as _ <-. eauto.
Qed.

Lemma eventLoop_written (evs : list (list TFolder)) :
  forall (outs : list (list AliPHOSDigit))
         (rest : list (list TFolder)) (ievent : nat)
         (treeD : list TBranch),
    Forall2 (fun ev out => DigitizeFolders geom this run name ev = Ok out) evs outs ->
    eventLoop geom this run name baseFile (evs ++ rest) ievent treeD
    = eventLoop geom this run name baseFile rest (ievent + length evs)
                (foldl Write treeD outs).
Proof.
  induction evs as [|ev evs IH]; intros outs rest i t H.
  - apply Forall2_nil_inv_l in H as ->. simpl. rewrite Nat.add_0_r. reflexivity.
  - apply Forall2_cons_inv_l in H as (out & outs' & Hev & H & ->).
    simpl. rewrite Hev. rewrite (IH outs' rest (S i) _ H).
    f_equal. lia.
Qed.

Lemma eventLoop_Done_inv (events : list (list TFolder)) :
  forall (ievent : nat) (treeD lob' : list TBranch) (n : nat),
    eventLoop geom this run name baseFile events ievent treeD = (lob', Done n) ->
    exists outs,
      Forall2 (fun ev out => DigitizeFolders geom this run name ev = Ok out) events outs
      /\ lob' = foldl Write treeD outs
      /\ n = (ievent + length events)%nat.
Proof.
  induction events as [|ev more IH]; intros i t lob' n H; simpl in H.
  - injection H as <- <-. exists []. split; [constructor|].
    split; [reflexivity | simpl; lia].
  - destruct (DigitizeFolders geom this run name ev) as [digits|f] eqn:E; [|discriminate].
    apply IH in H as (outs & Hall & -> & ->).
    exists (digits :: outs). split; [constructor; assumption|].
    split; [reflexivity | simpl; lia].
Qed.

Lemma Write_keeps (f : TBranch -> bool) (outs : list (list AliPHOSDigit)) :
  forall treeD : list TBranch,
    existsb f treeD = true -> existsb f (foldl Write treeD outs) = true.
Proof.
  induction outs as [|out outs IH]; intros t H; [exact H|].
  simpl. apply IH. unfold WriteDigits. rewrite existsb_app, H. reflexivity.
Qed.

Lemma Write_posts (out : list AliPHOSDigit) (treeD : list TBranch) :
  existsb (fun b => String.eqb (branchName b) "PHOS"
                    && String.eqb (branchTitle b) name)
          (WriteDigits this name baseFile out treeD) = true.
Proof.
  unfold WriteDigits. rewrite existsb_app. simpl.
  rewrite String.eqb_refl. simpl. apply orb_true_r.
Qed.

Lemma no_branch_scan (lob : list TBranch) :
  Forall (fun b => branchTitle b = name ->
                   branchName b <> "PHOS" /\ branchName b <> "AliPHOSDigitizer")
         lob ->
  findBranches name lob false false = (false, false).
Proof.
  intros H. rewrite findBranches_spec. simpl.
  rewrite Forall_forall in H.
  f_equal; apply not_true_is_false; intros E;
    apply branch_found in E as (b & Hb & E1 & E2);
    destruct (H b Hb E2) as [H1 H2]; contradiction.
Qed.

(** X11. [Exec], without "print" in its option and with a TreeD, refuses to
    digitize exactly when TreeD holds a branch titled with the name of the
    digitizer and named "PHOS" or "AliPHOSDigitizer"; TreeD is then left as
    it is. *)
Theorem Exec_refuses_iff (opt : string) (ard : AliRunDigitizer)
    (gAlice : AliRun) (lob : list TBranch) :
  strstr opt "print" = false ->
  match fARD this with
  | Some _ => GetTreeD ard
  | None => TreeD gAlice
  end = Some lob ->
  (exists b, b ∈ lob /\ branchTitle b = name
             /\ (branchName b = "PHOS" \/ branchName b = "AliPHOSDigitizer"))
  <-> (Exec geom this run name baseFile opt ard gAlice
       = (Some lob, DigitsBranchExists)
       \/ Exec geom this run name baseFile opt ard gAlice
          = (Some lob, DigitizerBranchExists)).
Proof.
  intros Hopt Htree. unfold Exec. rewrite Hopt, Htree.
  rewrite findBranches_spec. simpl.
  destruct (existsb _ lob) eqn:E1; [|destruct (existsb _ lob) eqn:E2 in |- *].
  - split; [auto|]. intros _.
    apply branch_found in E1 as (b & Hb & H1 & H2). exists b. auto.
  - split; [auto|]. intros _.
    apply branch_found in E2 as (b & Hb & H1 & H2). exists b. auto.
  - split.
    + intros (b & Hb & Ht & [Hn | Hn]).
      * assert (E : existsb (fun b => String.eqb (branchName b) "PHOS"
                                      && String.eqb (branchTitle b) name) lob = true)
          by (apply branch_found; eauto).
        congruence.
      * assert (E : existsb (fun b => String.eqb (branchName b) "AliPHOSDigitizer"
                                      && String.eqb (branchTitle b) name) lob = true)
          by (apply branch_found; eauto).
        congruence.
    + destruct (fARD this).
      * destruct (ReadTreeS (GetInputTreeS ard)) as [arr|];
          [destruct (DigitizeFolders geom this run name arr)|];
          intros [H | H]; discriminate.
      * destruct (eventLoop geom this run name baseFile (TreeE gAlice) 0 lob)
          as [lob' o] eqn:EL.
        apply eventLoop_outcome in EL as [[n ->] | (f & k & ->)];
          intros [H | H]; discriminate.
Qed.

(** X12. Without run digitizer, when TreeD holds no branch of the digitizer
    and every event is digitized without fault, [Exec] writes the events
    one after the other, two branches for each, and ends after the last. *)
Theorem Exec_writes_all_events (opt : string) (ard : AliRunDigitizer)
    (gAlice : AliRun) (lob : list TBranch) (outs : list (list AliPHOSDigit)) :
  strstr opt "print" = false ->
  fARD this = None ->
  TreeD gAlice = Some lob ->
  Forall (fun b => branchTitle b = name ->
                   branchName b <> "PHOS" /\ branchName b <> "AliPHOSDigitizer")
         lob ->
  Forall2 (fun ev out => DigitizeFolders geom this run name ev = Ok out) (TreeE gAlice) outs ->
  Exec geom this run name baseFile opt ard gAlice
  = (Some (foldl Write lob outs), Done (length outs))
  /\ length (foldl Write lob outs) = (length lob + 2 * length outs)%nat.
Proof.
  intros Hopt Hard Htree Hno Hall. split.
  - unfold Exec. rewrite Hopt, Hard, Htree, (no_branch_scan lob Hno).
    rewrite <- (app_nil_r (TreeE gAlice)).
    rewrite (eventLoop_written _ outs [] 0 lob Hall). simpl.
    rewrite (Forall2_length _ _ _ Hall). reflexivity.
  - clear. revert lob. induction outs as [|out outs IH]; intros lob; simpl; [lia|].
    rewrite IH. unfold WriteDigits. rewrite length_app. simpl. lia.
Qed.

(** X13. Without run digitizer, when the digitization of an event faults,
    the events before it have been written to TreeD and no later event is
    digitized. *)
Theorem Exec_stops_at_fault (opt : string) (ard : AliRunDigitizer)
    (gAlice : AliRun) (lob : list TBranch)
    (before : list (list TFolder)) (ev : list TFolder)
    (after : list (list TFolder)) (outs : list (list AliPHOSDigit))
    (f : Fault) :
  strstr opt "print" = false ->
  fARD this = None ->
  TreeD gAlice = Some lob ->
  Forall (fun b => branchTitle b = name ->
                   branchName b <> "PHOS" /\ branchName b <> "AliPHOSDigitizer")
         lob ->
  TreeE gAlice = before ++ ev :: after ->
  Forall2 (fun ev out => DigitizeFolders geom this run name ev = Ok out) before outs ->
  DigitizeFolders geom this run name ev = Crash f ->
  Exec geom this run name baseFile opt ard gAlice
  = (Some (foldl Write lob outs), Faulted f (length before)).
Proof.
  intros Hopt Hard Htree Hno Hev Hall Hf.
  unfold Exec. rewrite Hopt, Hard, Htree, (no_branch_scan lob Hno), Hev.
  rewrite (eventLoop_written _ outs (ev :: after) 0 lob Hall). simpl.
  rewrite Hf. reflexivity.
Qed.

Lemma ReadTreeS_missing (inputs : list (option TFolder)) :
  None ∈ inputs -> ReadTreeS inputs = None.
Proof.
  induction inputs as [|[treeS|] more IH]; intros H.
  - apply elem_of_nil in H. contradiction.
  - apply elem_of_cons in H as [H | H]; [discriminate|].
    simpl. rewrite (IH H). reflexivity.
  - reflexivity.
Qed.

Lemma ReadTreeS_all (arr : list TFolder) :
  ReadTreeS (Some <$> arr) = Some arr.
Proof.
  induction arr as [|s arr IH]; [reflexivity|].
  rewrite fmap_cons. cbn [ReadTreeS]. rewrite IH. reflexivity.
Qed.

(** X14. Under a run digitizer, when TreeD holds no branch of the
    digitizer, [Exec] handles one event: with the tree of an input missing
    it digitizes nothing and leaves TreeD as it is; with the trees of all
    inputs it digitizes what they put on the white board and writes the two
    branches of the event, unless the digitization faults. *)
Theorem Exec_under_run_digitizer (opt : string) (ard : AliRunDigitizer)
    (gAlice : AliRun) (lob : list TBranch) (mask : nat -> Z) :
  strstr opt "print" = false ->
  fARD this = Some mask ->
  GetTreeD ard = Some lob ->
  Forall (fun b => branchTitle b = name ->
                   branchName b <> "PHOS" /\ branchName b <> "AliPHOSDigitizer")
         lob ->
  (None ∈ GetInputTreeS ard ->
   Exec geom this run name baseFile opt ard gAlice = (Some lob, NoInput))
  /\ (forall folders,
        GetInputTreeS ard = Some <$> folders ->
        Exec geom this run name baseFile opt ard gAlice
        = match DigitizeFolders geom this run name folders with
          | Ok digits => (Some (WriteDigits this name baseFile digits lob), Done 1)
          | Crash f => (Some lob, Faulted f 0)
          end).
Proof.
  intros Hopt Hard Htree Hno.
  unfold Exec. rewrite Hopt, Hard, Htree, (no_branch_scan lob Hno). split.
  - intros H. rewrite (ReadTreeS_missing _ H). reflexivity.
  - intros arr ->. rewrite ReadTreeS_all. reflexivity.
Qed.

End ExecProperties.

(** X15. [Exec] a second time under the same name: after an [Exec] that
    ended having written at least one event, any further [Exec] on the
    TreeD it left, without "print" in its option, finds the branch "PHOS" of
    that name, digitizes nothing and leaves TreeD as it is. *)
Theorem Exec_twice (name : string)
    (geom : AliPHOSGeometry) (this : AliPHOSDigitizer) (run : Collaborators)
    (baseFile : option string) (opt : string) (ard : AliRunDigitizer)
    (gAlice : AliRun)
    (geom' : AliPHOSGeometry) (this' : AliPHOSDigitizer) (run' : Collaborators)
    (baseFile' : option string) (opt' : string) (ard' : AliRunDigitizer)
    (gAlice' : AliRun)
    (lob' : list TBranch) (n : nat) :
  Exec geom this run name baseFile opt ard gAlice = (Some lob', Done n) ->
  (0 < n)%nat ->
  strstr opt' "print" = false ->
  match fARD this' with
  | Some _ => GetTreeD ard'
  | None => TreeD gAlice'
  end = Some lob' ->
  Exec geom' this' run' name baseFile' opt' ard' gAlice'
  = (Some lob', DigitsBranchExists).
Proof.
  intros H Hn Hopt' Htree'.
  assert (Hposted : existsb (fun b => String.eqb (branchName b) "PHOS"
                                      && String.eqb (branchTitle b) name) lob'
                    = true).
  { unfold Exec in H.
    destruct (strstr opt "print"); [discriminate|].
    destruct (match fARD this with
              | Some _ => GetTreeD ard
              | None => TreeD gAlice
              end) as [lob|]; [|discriminate].
    destruct (findBranches name lob false false) as [[] []];
      try discriminate.
    destruct (fARD this).
    - destruct (ReadTreeS (GetInputTreeS ard)) as [arr|]; [|discriminate].
      destruct (DigitizeFolders geom this run name arr) as [digits|f]; [|discriminate].
      injection H as <- _. apply Write_posts.
    - destruct (eventLoop geom this run name baseFile (TreeE gAlice) 0 lob)
        as [lob1 o] eqn:EL.
      injection H as -> ->.
      apply eventLoop_Done_inv in EL as (outs & Hall & -> & ->).
      apply Forall2_length in Hall.
      destruct outs as [|out outs]; [simpl in Hall; simpl in Hn; lia|].
      simpl. apply Write_keeps, Write_posts. }
  unfold Exec. rewrite Hopt', Htree', findBranches_spec, Hposted. reflexivity.
Qed.

(** ** Exec on given runs *)

Lemma Exec_refuses_iff_witness :
  Exec geom_4_2 standalone quiet "Default" None "deb" no_run_digitizer
       {| TreeD := Some [mkBranch "PHOS" "Default" None []];
          TreeE := [whiteBoard scenario] |}
  = (Some [mkBranch "PHOS" "Default" None []], DigitsBranchExists)
  \/ Exec geom_4_2 standalone quiet "Default" None "deb" no_run_digitizer
          {| TreeD := Some [mkBranch "PHOS" "Default" None []];
             TreeE := [whiteBoard scenario] |}
     = (Some [mkBranch "PHOS" "Default" None []], DigitizerBranchExists).
Proof.
  apply (Exec_refuses_iff geom_4_2 standalone quiet "Default" None "deb"
           no_run_digitizer
           {| TreeD := Some [mkBranch "PHOS" "Default" None []];
              TreeE := [whiteBoard scenario] |}
           [mkBranch "PHOS" "Default" None []]);
    [reflexivity | reflexivity |].
  exists (mkBranch "PHOS" "Default" None []).
  split; [constructor | split; [reflexivity | left; reflexivity]].
Defined.

Lemma Exec_writes_all_events_witness :
  exists o1 o2,
    Exec geom_4_2 standalone quiet "Default" None "deb" no_run_digitizer
         run_of_two_events
    = (Some (foldl (fun t out => WriteDigits standalone "Default" None out t)
                   [] [o1; o2]),
       Done 2)
    /\ fId <$> o1 = [2] /\ fId <$> o2 = [5].
Proof.
  destruct (DigitizeFolders geom_4_2 standalone quiet "Default"
              (whiteBoard scenario)) as [o1|f] eqn:E1;
    [|vm_compute in E1; discriminate].
  destruct (DigitizeFolders geom_4_2 standalone quiet "Default"
              (whiteBoard cpv_input)) as [o2|f] eqn:E2;
    [|vm_compute in E2; discriminate].
  exists o1, o2. split.
  - apply (Exec_writes_all_events geom_4_2 standalone quiet "Default" None "deb"
             no_run_digitizer run_of_two_events [] [o1; o2]);
      [reflexivity | reflexivity | reflexivity | constructor
       | repeat constructor; assumption].
  - vm_compute in E1, E2. injection E1 as <-. injection E2 as <-.
    split; reflexivity.
Defined.

Lemma Exec_stops_at_fault_witness :
  exists out,
    Exec geom_4_2 standalone quiet "Default" None "" no_run_digitizer
         run_with_fault
    = (Some (WriteDigits standalone "Default" None out []),
       Faulted NullDereference 1).
Proof.
  destruct (DigitizeFolders geom_4_2 standalone quiet "Default"
              (whiteBoard scenario)) as [o1|f] eqn:E1;
    [|vm_compute in E1; discriminate].
  exists o1.
  apply (Exec_stops_at_fault geom_4_2 standalone quiet "Default" None ""
           no_run_digitizer run_with_fault [] [whiteBoard scenario]
           (whiteBoard single_input) [whiteBoard three_inputs] [o1]
           NullDereference);
    [reflexivity | reflexivity | reflexivity | constructor | reflexivity
     | repeat constructor; assumption | vm_compute; reflexivity].
Defined.

Lemma Exec_under_run_digitizer_witness :
  exists digits,
    DigitizeFolders geom_4_2 under_run_digitizer quiet "Default"
                    (whiteBoard two_inputs) = Ok digits
    /\ fId <$> digits = [2]
    /\ Exec geom_4_2 under_run_digitizer quiet "Default" None "tim"
            run_digitizer_of_two run_of_two_events
       = (Some (WriteDigits under_run_digitizer "Default" None digits []), Done 1).
Proof.
  destruct (DigitizeFolders geom_4_2 under_run_digitizer quiet "Default"
              (whiteBoard two_inputs))
    as [digits|f] eqn:E; [|vm_compute in E; discriminate].
  exists digits. split; [reflexivity|]. split.
  - vm_compute in E. injection E as <-. reflexivity.
  - destruct (Exec_under_run_digitizer geom_4_2 under_run_digitizer quiet
                "Default" None "tim" run_digitizer_of_two run_of_two_events []
                (fun i => 10000000 * Z.of_nat i))
      as [_ H]; [reflexivity | reflexivity | reflexivity | constructor |].
    rewrite (H (whiteBoard two_inputs) eq_refl), E.
    reflexivity.
Defined.

Lemma Exec_twice_witness :
  exists lob',
    Exec geom_4_2 standalone quiet "Default" None "deb" no_run_digitizer
         run_of_two_events = (Some lob', Done 2)
    /\ Exec geom_8_2 standalone noisy "Default" None "tim" no_run_digitizer
            {| TreeD := Some lob'; TreeE := [whiteBoard scenario] |}
       = (Some lob', DigitsBranchExists).
Proof.
  assert (E : exists lob',
             Exec geom_4_2 standalone quiet "Default" None "deb"
                  no_run_digitizer run_of_two_events = (Some lob', Done 2))
    by (vm_compute; eexists; reflexivity).
  destruct E as [lob' E]. exists lob'. split; [exact E|].
  apply (Exec_twice "Default" geom_4_2 standalone quiet None "deb"
           no_run_digitizer run_of_two_events
           geom_8_2 standalone noisy None "tim" no_run_digitizer
           {| TreeD := Some lob'; TreeE := [whiteBoard scenario] |} lob' 2 E);
    [lia | reflexivity | reflexivity].
Defined.

(** ** Events without signal in the detector *)


